(** * PDFShield: ordered lists with an index-keyed selection

    A shallow embedding of the state handling of the renderer pages
    (src/pages/EditPDF.tsx, MergePDF.tsx, SplitPDF.tsx,
    PDFToImages.tsx, and the ImagesToPDF and ProtectPDF pages):
    React state is passed explicitly, every handler is a function from
    the state it reads to the state it sets.  JavaScript numbers that are
    array indices or byte counts are integers of [Z]; arrays are lists;
    a [Set<number>] is the duplicate-free list of its members in
    insertion order, which is the order [forEach] and [Array.from]
    visit them in. *)

From Stdlib Require Import ZArith QArith Qround Qabs Ascii.
From stdpp Require Import base decidable option numbers list list_numbers.
From stdpp Require Import strings pretty sorting.

Local Open Scope Z_scope.

(** ** JavaScript arrays and sets *)

Module Js.

Section Array.
Context {A : Type}.
Implicit Types (l : list A) (i start : Z).

(** [l.length] *)
Definition len l : Z := Z.of_nat (length l).

(** [l[i]]; [None] is [undefined]. *)
Definition get l i : option A :=
  if bool_decide (0 ≤ i) then l !! Z.to_nat i else None.

(** [l.findIndex(p)]: the first index whose element satisfies [p],
    or [-1]. *)
Fixpoint findIndex_from (p : A → bool) l (k : Z) : Z :=
  match l with
  | [] => -1
  | x :: l' => if p x then k else findIndex_from p l' (k + 1)
  end.

Definition findIndex (p : A → bool) l : Z := findIndex_from p l 0.

(** The start position [splice] works at: a negative [start] counts
    from the end, and the result is clamped to [0 .. length]. *)
Definition relativeStart l start : nat :=
  Z.to_nat (if bool_decide (start < 0)
            then Z.max (len l + start) 0
            else Z.min start (len l)).

(** [l.splice(start, 1)]: the first removed element ([None] when
    nothing is removed, JavaScript's [undefined]) and the array that
    is left. *)
Definition splice_delete1 start l : option A * list A :=
  let k := relativeStart l start in (l !! k, delete k l).

(** [l.splice(start, 0, x)] *)
Definition splice_insert start (x : A) l : list A :=
  let k := relativeStart l start in take k l ++ x :: drop k l.

(** The two-splice move written out in [moveFile] and [moveImage]:
    [const [removed] = a.splice(from, 1); a.splice(to, 0, removed)].
    When [from] is past the end nothing is removed and JavaScript
    inserts [undefined]; [list A] has no such entry, the model keeps
    the list as it is there.  Every statement below about a move has
    [from] inside the list. *)
Definition splice_move (from to : Z) l : list A :=
  match splice_delete1 from l with
  | (Some removed, rest) => splice_insert to removed rest
  | (None, rest) => rest
  end.

(** Modelled from the spec: [arrayMove] is imported from
    [@dnd-kit/sortable] and its source is not under src/.  The spec's
    [moveToPosition] "removes the item from its current index and
    reinserts at newIndex; all other items shift accordingly", which
    is what the library does with two splices on a copy; a negative
    [to] is taken from the end of the array as it was before the
    removal.  As in [splice_move], the list is kept when nothing is
    removed. *)
Definition arrayMove l (from to : Z) : list A :=
  let to' := if bool_decide (to < 0) then len l + to else to in
  match splice_delete1 from l with
  | (Some removed, rest) => splice_insert to' removed rest
  | (None, rest) => rest
  end.

(** The destructuring swap [[a[i], a[j]] = [a[j], a[i]]] on a copy.
    Both positions are inside the array wherever a handler reaches
    it (outside JavaScript would grow the array with holes; the model
    leaves the list alone, as [<[_:=_]>] does). *)
Definition swap (i j : nat) l : list A :=
  match l !! i, l !! j with
  | Some x, Some y => <[j := x]> (<[i := y]> l)
  | _, _ => l
  end.

(** [l.filter((_, index) => keep index)] *)
Fixpoint filter_index_from (keep : Z → bool) l (k : Z) : list A :=
  match l with
  | [] => []
  | x :: l' =>
      if keep k then x :: filter_index_from keep l' (k + 1)
      else filter_index_from keep l' (k + 1)
  end.

Definition filter_index (keep : Z → bool) l : list A :=
  filter_index_from keep l 0.
End Array.

(** A [Set<number>]: members in insertion order, no duplicates. *)
Abbreviation JsSet := (list Z).

Module JsSet.
Definition empty : JsSet := [].
Definition has (x : Z) (s : JsSet) : bool := bool_decide (x ∈ s).
Definition add (x : Z) (s : JsSet) : JsSet :=
  if has x s then s else s ++ [x].
Definition delete (x : Z) (s : JsSet) : JsSet :=
  filter (λ y, y ≠ x) s.
Definition size (s : JsSet) : Z := Z.of_nat (length s).

(** [const n = new Set(); prev.forEach(i => n.add(f i)); return n] *)
Definition forEach_add (f : Z → Z) (prev : JsSet) : JsSet :=
  foldl (λ newSet i, add (f i) newSet) empty prev.
End JsSet.

(** [String(n)] for an integer [n]. *)
Definition toString (n : Z) : string := pretty n.

(** The decimal digit [d], as a string. *)
Definition digit (d : Z) : string := String (pretty_N_char (Z.to_N d)) "".

(** [x.toFixed(f)] as ECMAScript defines it for a finite [x] below
    [10^21]: [n] is the integer for which [n / 10^f - x] is as close to
    zero as possible, the larger one when there are two; its decimal
    digits are padded with zeros to [f + 1] places and the point goes
    before the last [f].  The argument is the exact value of the
    number: a byte count below [2^53] divided by a power of two is
    exact as a double, so [Q] holds it. *)
Definition toFixed (x : Q) (f : nat) : string :=
  let neg := bool_decide (Qnum x < 0) in
  let x := Qabs x in
  let n := Qfloor (x * inject_Z (10 ^ Z.of_nat f) + (1 # 2))%Q in
  let m := toString n in
  let k := String.length m in
  let m := if bool_decide (k ≤ f)%nat
           then String.concat "" (replicate (f + 1 - k)%nat "0") +:+ m else m in
  let k := String.length m in
  let m := if bool_decide (f = 0%nat) then m
           else String.substring 0 (k - f) m +:+ "." +:+ String.substring (k - f) f m in
  if neg then "-" +:+ m else m.

(** The comparator [cmp] lets [a] stand before [b]: [cmp a b] is not
    positive. *)
Definition ordered (cmp : Z → Z → Z) (a b : Z) : Prop := cmp a b ≤ 0.

#[global] Instance ordered_dec cmp : RelDecision (ordered cmp).
Proof. intros a b. unfold ordered. apply _. Defined.

(** [l.sort(cmp)].  For a consistent comparator ECMAScript fixes the
    result, whatever the engine's algorithm; a merge sort computes
    it. *)
Definition sort (cmp : Z → Z → Z) (l : list Z) : list Z :=
  merge_sort (ordered cmp) l.

End Js.

(** The failures the spec names for its operations. *)
Inductive error := NotFound | DuplicateIdentity | InvalidPermutation.

(** The browser's [File]: the fields the pages read. *)
Record File := {
  file_name : string;
  file_size : Z;
  file_arrayBuffer : list Byte.byte
}.

(** ** src/pages/EditPDF.tsx *)

Module EditPDF.
Import Js.

Record PageInfo := {
  id : string;
  pageIndex : Z;
  rotation : Z
}.

Record LoadedPDF := {
  file : File;
  name : string;
  size : string;
  arrayBuffer : list Byte.byte;
  pages : list PageInfo
}.

(** The component's React state. *)
Record State := {
  loadedPDF : option LoadedPDF;
  selectedPages : JsSet
}.

Definition initial : State :=
  {| loadedPDF := None; selectedPages := JsSet.empty |}.

(** [{ ...prev, pages: newPages }] *)
Definition with_pages (prev : LoadedPDF) (newPages : list PageInfo) : LoadedPDF :=
  {| file := file prev; name := name prev; size := size prev;
     arrayBuffer := arrayBuffer prev; pages := newPages |}.

Definition formatFileSize (bytes : Z) : string :=
  if bool_decide (bytes < 1024) then toString bytes +:+ " B"
  else if bool_decide (bytes < 1024 * 1024)
       then toFixed (inject_Z bytes / inject_Z 1024)%Q 1 +:+ " KB"
       else toFixed (inject_Z bytes / inject_Z (1024 * 1024))%Q 1 +:+ " MB".

(** [handleFilesAdded]: [doc] is what [PDFDocument.load] made of the
    first file, the rotation angle of each page ([None] when it threw,
    which the handler catches); [now i] is what [Date.now()] returns
    when the id of page [i] is made, one call for each turn of the
    loop. *)
Definition handleFilesAdded (files : list File) (doc : option (list Z))
    (now : nat → Z) (st : State) : State :=
  match files with
  | [] => st
  | f :: _ =>
      match doc with
      | None => st
      | Some angles =>
          let pages :=
            imap (λ i angle,
                    {| id := "page-" +:+ toString (Z.of_nat i) +:+ "-" +:+ toString (now i);
                       pageIndex := Z.of_nat i;
                       rotation := angle |}) angles in
          {| loadedPDF :=
               Some {| file := f; name := file_name f;
                       size := formatFileSize (file_size f);
                       arrayBuffer := file_arrayBuffer f;
                       pages := pages |};
             selectedPages := JsSet.empty |}
      end
  end.

(** The index a selected index is sent to when the page at [oldIndex]
    is dragged to [newIndex]: the body of the [forEach] callback of
    [handleDragEnd]. *)
Definition dragRemap (oldIndex newIndex selectedIdx : Z) : Z :=
  if bool_decide (selectedIdx = oldIndex) then newIndex
  else if bool_decide (oldIndex < newIndex) then
    if bool_decide (selectedIdx > oldIndex) && bool_decide (selectedIdx ≤ newIndex)
    then selectedIdx - 1 else selectedIdx
  else
    if bool_decide (selectedIdx >= newIndex) && bool_decide (selectedIdx < oldIndex)
    then selectedIdx + 1 else selectedIdx.

(** [handleDragEnd]: [active] is [event.active.id], [over] is
    [event.over] ([None] for [null]) with its id. *)
Definition handleDragEnd (active : string) (over : option string)
    (st : State) : State :=
  match over with
  | Some over_id =>
      if bool_decide (active ≠ over_id) then
        match loadedPDF st with
        | None => st
        | Some prev =>
            let oldIndex := findIndex (λ p, bool_decide (id p = active)) (pages prev) in
            let newIndex := findIndex (λ p, bool_decide (id p = over_id)) (pages prev) in
            let newPages := arrayMove (pages prev) oldIndex newIndex in
            {| loadedPDF := Some (with_pages prev newPages);
               selectedPages :=
                 JsSet.forEach_add (dragRemap oldIndex newIndex) (selectedPages st) |}
        end
      else st
  | None => st
  end.

Definition togglePage (pageIndex : Z) (st : State) : State :=
  {| loadedPDF := loadedPDF st;
     selectedPages :=
       if JsSet.has pageIndex (selectedPages st)
       then JsSet.delete pageIndex (selectedPages st)
       else JsSet.add pageIndex (selectedPages st) |}.

Definition selectAll (st : State) : State :=
  match loadedPDF st with
  | None => st
  | Some pdf =>
      {| loadedPDF := loadedPDF st;
         selectedPages :=
           foldl (λ allPages i, JsSet.add i allPages) JsSet.empty
                 (seqZ 0 (len (pages pdf))) |}
  end.

Definition deselectAll (st : State) : State :=
  {| loadedPDF := loadedPDF st; selectedPages := JsSet.empty |}.

Inductive direction := left | right.

(** [rotatePages]: the update of the pages.  (The handler then calls
    [setPdfVersion], a setter the component does not declare; that
    call is not part of the model.) *)
Definition rotatePages (d : direction) (st : State) : State :=
  match loadedPDF st with
  | None => st
  | Some prev =>
      if bool_decide (JsSet.size (selectedPages st) = 0) then st
      else
        let rotationAmount := match d with left => -90 | right => 90 end in
        let newPages :=
          imap (λ index page,
                  if JsSet.has (Z.of_nat index) (selectedPages st)
                  then {| id := id page; pageIndex := pageIndex page;
                          rotation := Z.rem (rotation page + rotationAmount + 360) 360 |}
                  else page) (pages prev) in
        {| loadedPDF := Some (with_pages prev newPages);
           selectedPages := selectedPages st |}
  end.

(** [deleteSelectedPages]: the new state and the message handed to
    [alert], if any. *)
Definition deleteSelectedPages (st : State) : State * option string :=
  match loadedPDF st with
  | None => (st, None)
  | Some prev =>
      if bool_decide (JsSet.size (selectedPages st) = 0) then (st, None)
      else if bool_decide (JsSet.size (selectedPages st) >= len (pages prev))
      then (st, Some "Cannot delete all pages")
      else
        let newPages :=
          filter_index (λ index, negb (JsSet.has index (selectedPages st)))
                       (pages prev) in
        ({| loadedPDF := Some (with_pages prev newPages);
            selectedPages := JsSet.empty |}, None)
  end.

Definition movePageUp (index : Z) (st : State) : State :=
  match loadedPDF st with
  | None => st
  | Some prev =>
      if bool_decide (index = 0) then st
      else
        let newPages := swap (Z.to_nat (index - 1)) (Z.to_nat index) (pages prev) in
        {| loadedPDF := Some (with_pages prev newPages);
           selectedPages :=
             JsSet.forEach_add
               (λ i, if bool_decide (i = index) then i - 1
                     else if bool_decide (i = index - 1) then i + 1
                     else i)
               (selectedPages st) |}
  end.

Definition movePageDown (index : Z) (st : State) : State :=
  match loadedPDF st with
  | None => st
  | Some prev =>
      if bool_decide (index >= len (pages prev) - 1) then st
      else
        let newPages := swap (Z.to_nat index) (Z.to_nat (index + 1)) (pages prev) in
        {| loadedPDF := Some (with_pages prev newPages);
           selectedPages :=
             JsSet.forEach_add
               (λ i, if bool_decide (i = index) then i + 1
                     else if bool_decide (i = index + 1) then i - 1
                     else i)
               (selectedPages st) |}
  end.

(** [clearAll], and the reset at the end of [handleSave]. *)
Definition clearAll (st : State) : State :=
  {| loadedPDF := None; selectedPages := JsSet.empty |}.

(** *** The page as a transition system *)

(** What the rendered page can ask of its handlers. *)
Inductive event :=
| FilesAdded (files : list File) (doc : option (list Z)) (now : nat → Z)
| DragEnd (active : string) (over : option string)
| TogglePage (pageIndex : Z)
| SelectAll
| DeselectAll
| RotatePages (d : direction)
| DeleteSelectedPages
| MovePageUp (index : Z)
| MovePageDown (index : Z)
| ClearAll.

Definition handle (st : State) (e : event) : State :=
  match e with
  | FilesAdded files doc now => handleFilesAdded files doc now st
  | DragEnd active over => handleDragEnd active over st
  | TogglePage i => togglePage i st
  | SelectAll => selectAll st
  | DeselectAll => deselectAll st
  | RotatePages d => rotatePages d st
  | DeleteSelectedPages => (deleteSelectedPages st).1
  | MovePageUp i => movePageUp i st
  | MovePageDown i => movePageDown i st
  | ClearAll => clearAll st
  end.

(** [i] is the index of a page item rendered for [st]
    ([loadedPDF.pages.map((pageInfo, index) => ...)]). *)
Definition rendered_index (st : State) (i : Z) : Prop :=
  ∃ pdf, loadedPDF st = Some pdf ∧ 0 ≤ i < len (pages pdf).

(** [i] is the id of a page item rendered for [st]. *)
Definition rendered_id (st : State) (i : string) : Prop :=
  ∃ pdf, loadedPDF st = Some pdf ∧ i ∈ map id (pages pdf).

(** The events the page rendered for [st] can emit: the per-page
    callbacks are closed over the index of a rendered item, and the
    drag library reports the ids of the sortable items it was given. *)
Definition emits (st : State) (e : event) : Prop :=
  match e with
  | DragEnd active over =>
      rendered_id st active ∧ ∀ o, over = Some o → rendered_id st o
  | TogglePage i | MovePageUp i | MovePageDown i => rendered_index st i
  | _ => True
  end.

(** The state after a sequence of events. *)
Definition run (st : State) (evs : list event) : State := foldl handle st evs.

(** Every event of the sequence is one the page emits in the state
    the events before it lead to. *)
Fixpoint emitted (st : State) (evs : list event) : Prop :=
  match evs with
  | [] => True
  | e :: evs' => emits st e ∧ emitted (handle st e) evs'
  end.

(** The pages a selection stands for. *)
Definition selectedItems (ps : list PageInfo) (sel : JsSet) : list PageInfo :=
  omap (get ps) sel.

(** I1 in the index-keyed representation. *)
Definition no_dangling (st : State) : Prop :=
  match loadedPDF st with
  | Some pdf => ∀ i, i ∈ selectedPages st → 0 ≤ i < len (pages pdf)
  | None => selectedPages st = []
  end.

(** [ps'] is [ps] with the neighbours at [i] and [i + 1] exchanged. *)
Definition transposed (i : Z) (ps ps' : list PageInfo) : Prop :=
  len ps' = len ps ∧
  get ps' i = get ps (i + 1) ∧
  get ps' (i + 1) = get ps i ∧
  ∀ j, j ≠ i → j ≠ i + 1 → get ps' j = get ps j.

(** *** Saving *)

Section Save.
(** What a page of the document shows, opaque to the application; a
    page of the PDF library is this content with its rotation angle.
    [blank] is what the page shows that [save] adds to a document
    without pages. *)
Context {Content : Type} (blank : Content).

(** [handleSave]: the pages of the document that is saved, in order,
    each with its rotation angle; [None] when nothing is saved: no
    file, or a call of the PDF library threw and the handler caught
    it.  [copyPages] throws for a page index outside the source, and
    [setRotation] for an angle that is not a multiple of 90; [save]
    adds one blank, unrotated page when no page was added.
    [sourcePdf] is the document [PDFDocument.load] reads from
    [loadedPDF.arrayBuffer].  After a save the page is reset as by
    [clearAll]. *)
Definition handleSave (sourcePdf : list (Content * Z)) (st : State)
    : option (list (Content * Z)) :=
  match loadedPDF st with
  | None => None
  | Some pdf =>
      newPdf ←
        mapM (λ pageInfo,
                copiedPage ← get sourcePdf (pageIndex pageInfo);
                let currentRotation := copiedPage.2 in
                let newRotation := rotation pageInfo in
                if bool_decide (currentRotation ≠ newRotation)
                then (if bool_decide (Z.rem newRotation 90 = 0)
                      then Some (copiedPage.1, newRotation) else None)
                else Some copiedPage)
             (pages pdf);
      Some (match newPdf with
            | [] => [(blank, 0)]
            | _ => newPdf
            end)
  end.
End Save.

(** Selected indices, ids and page numbers each occur once. *)
Definition distinct (st : State) : Prop :=
  NoDup (selectedPages st) ∧
  match loadedPDF st with
  | Some pdf => NoDup (map id (pages pdf)) ∧ NoDup (map pageIndex (pages pdf))
  | None => True
  end.

(** An event that neither loads a file nor clears the page. *)
Definition keeps_file (e : event) : Prop :=
  match e with
  | FilesAdded _ _ _ | ClearAll => False
  | _ => True
  end.

(** A file with at least one page is loaded, and every entry points
    at one of the [n] pages of the source and is turned by a multiple
    of 90 degrees. *)
Definition savable (n : Z) (st : State) : Prop :=
  ∃ pdf,
    loadedPDF st = Some pdf ∧ pages pdf ≠ [] ∧
    Forall (λ p, 0 ≤ pageIndex p < n ∧ Z.rem (rotation p) 90 = 0) (pages pdf).

End EditPDF.

(** ** src/pages/MergePDF.tsx *)

Module MergePDF.
Import Js.

Record PDFFile := {
  id : string;
  file : File;
  name : string;
  pages : Z;
  size : string;
  arrayBuffer : list Byte.byte
}.

Definition handleDragEnd (active : string) (over : option string)
    (items : list PDFFile) : list PDFFile :=
  match over with
  | Some over_id =>
      if bool_decide (active ≠ over_id) then
        let oldIndex := findIndex (λ item, bool_decide (id item = active)) items in
        let newIndex := findIndex (λ item, bool_decide (id item = over_id)) items in
        arrayMove items oldIndex newIndex
      else items
  | None => items
  end.

Definition formatFileSize (bytes : Z) : string :=
  if bool_decide (bytes < 1024) then toString bytes +:+ " B"
  else if bool_decide (bytes < 1024 * 1024)
       then toFixed (inject_Z bytes / inject_Z 1024)%Q 1 +:+ " KB"
       else toFixed (inject_Z bytes / inject_Z (1024 * 1024))%Q 1 +:+ " MB".

(** [handleFilesAdded]: each new file comes with the page count
    [PDFDocument.load] found in it ([None] when it threw: the file is
    skipped) and the identifier [crypto.randomUUID()] returned for it. *)
Definition handleFilesAdded (newFiles : list (File * option Z * string))
    (prev : list PDFFile) : list PDFFile :=
  prev ++
  omap (λ '(f, loaded, uuid),
          match loaded with
          | Some n =>
              Some {| id := uuid; file := f; name := file_name f; pages := n;
                      size := formatFileSize (file_size f);
                      arrayBuffer := file_arrayBuffer f |}
          | None => None
          end) newFiles.

Definition removeFile (i : string) (prev : list PDFFile) : list PDFFile :=
  filter (λ f, id f ≠ i) prev.

(** [moveFile]: the guard reads [files.length] of the rendered list,
    which is the list the updater receives. *)
Definition moveFile (fromIndex toIndex : Z) (files : list PDFFile) : list PDFFile :=
  if bool_decide (toIndex < 0) || bool_decide (toIndex >= len files) then files
  else splice_move fromIndex toIndex files.

Definition clearAll (files : list PDFFile) : list PDFFile := [].

(** The arrow buttons of the item [SortablePDFItem] renders at
    [index]: the left one is [disabled] for the first item and the
    right one for the last (a disabled button gets no click);
    otherwise a click calls [moveFile(index, index - 1)], or
    [moveFile(index, index + 1)]. *)
Definition onMoveUp (index : Z) (files : list PDFFile) : list PDFFile :=
  if bool_decide (index = 0) then files
  else moveFile index (index - 1) files.

Definition onMoveDown (index : Z) (files : list PDFFile) : list PDFFile :=
  if bool_decide (index = len files - 1) then files
  else moveFile index (index + 1) files.

(** *** The page as a transition system *)

Inductive event :=
| FilesAdded (newFiles : list (File * option Z * string))
| DragEnd (active : string) (over : option string)
| RemoveFile (i : string)
| MoveFile (fromIndex toIndex : Z)
| ClearAll.

Definition handle (files : list PDFFile) (e : event) : list PDFFile :=
  match e with
  | FilesAdded newFiles => handleFilesAdded newFiles files
  | DragEnd active over => handleDragEnd active over files
  | RemoveFile i => removeFile i files
  | MoveFile fromIndex toIndex => moveFile fromIndex toIndex files
  | ClearAll => clearAll files
  end.

(** The identifiers [crypto.randomUUID()] returned, one for each file
    that loaded. *)
Definition uuids (newFiles : list (File * option Z * string)) : list string :=
  omap (λ '(f, loaded, uuid),
          match loaded with
          | Some _ => Some uuid
          | None => None
          end) newFiles.

(** The events the page rendered for [files] can emit: random
    identifiers are new and differ from each other, the drag library
    reports ids of rendered items, the remove button carries the id of
    its item and the arrow buttons the index of theirs and a
    neighbouring index. *)
Definition emits (files : list PDFFile) (e : event) : Prop :=
  match e with
  | FilesAdded newFiles =>
      NoDup (uuids newFiles) ∧ ∀ u, u ∈ uuids newFiles → u ∉ map id files
  | DragEnd active over =>
      active ∈ map id files ∧ ∀ o, over = Some o → o ∈ map id files
  | RemoveFile i => i ∈ map id files
  | MoveFile fromIndex toIndex =>
      0 ≤ fromIndex < len files ∧
      (toIndex = fromIndex - 1 ∨ toIndex = fromIndex + 1)
  | ClearAll => True
  end.

Definition run (files : list PDFFile) (evs : list event) : list PDFFile :=
  foldl handle files evs.

Fixpoint emitted (files : list PDFFile) (evs : list event) : Prop :=
  match evs with
  | [] => True
  | e :: evs' => emits files e ∧ emitted (handle files e) evs'
  end.

End MergePDF.

(** ** The ImagesToPDF page (src/unnamed/part_004) *)

Module ImagesToPDF.
Import Js.

Record ImageFile := {
  id : string;
  file : File;
  name : string;
  size : string;
  preview : string
}.

Definition handleDragEnd (active : string) (over : option string)
    (items : list ImageFile) : list ImageFile :=
  match over with
  | Some over_id =>
      if bool_decide (active ≠ over_id) then
        let oldIndex := findIndex (λ item, bool_decide (id item = active)) items in
        let newIndex := findIndex (λ item, bool_decide (id item = over_id)) items in
        arrayMove items oldIndex newIndex
      else items
  | None => items
  end.

Definition formatFileSize (bytes : Z) : string :=
  if bool_decide (bytes < 1024) then toString bytes +:+ " B"
  else if bool_decide (bytes < 1024 * 1024)
       then toFixed (inject_Z bytes / inject_Z 1024)%Q 1 +:+ " KB"
       else toFixed (inject_Z bytes / inject_Z (1024 * 1024))%Q 1 +:+ " MB".

(** [removeImage]: the update of the list (the preview URL of the
    image found is revoked first, which is not state of the page). *)
Definition removeImage (i : string) (prev : list ImageFile) : list ImageFile :=
  filter (λ img, id img ≠ i) prev.

Definition moveImage (fromIndex toIndex : Z) (prev : list ImageFile) : list ImageFile :=
  splice_move fromIndex toIndex prev.

(** The arrow buttons of the item [SortableImageItem] renders at
    [index]: the left one is [disabled] for the first image and the
    right one for the last (a disabled button gets no click);
    otherwise a click calls [moveImage(index, index - 1)], or
    [moveImage(index, index + 1)]. *)
Definition onMoveUp (index : Z) (images : list ImageFile) : list ImageFile :=
  if bool_decide (index = 0) then images
  else moveImage index (index - 1) images.

Definition onMoveDown (index : Z) (images : list ImageFile) : list ImageFile :=
  if bool_decide (index = len images - 1) then images
  else moveImage index (index + 1) images.

End ImagesToPDF.

(** ** src/pages/SplitPDF.tsx *)

Module SplitPDF.
Import Js.

Record LoadedPDF := {
  file : File;
  name : string;
  pages : Z;
  size : string;
  arrayBuffer : list Byte.byte
}.

Record State := {
  loadedPDF : option LoadedPDF;
  selectedPages : JsSet
}.

Definition initial : State :=
  {| loadedPDF := None; selectedPages := JsSet.empty |}.

Definition formatFileSize (bytes : Z) : string :=
  if bool_decide (bytes < 1024) then toString bytes +:+ " B"
  else if bool_decide (bytes < 1024 * 1024)
       then toFixed (inject_Z bytes / inject_Z 1024)%Q 1 +:+ " KB"
       else toFixed (inject_Z bytes / inject_Z (1024 * 1024))%Q 1 +:+ " MB".

(** [handleFilesAdded]: [doc] is the page count [PDFDocument.load]
    found in the first file ([None] when it threw, which the handler
    catches). *)
Definition handleFilesAdded (files : list File) (doc : option Z)
    (st : State) : State :=
  match files with
  | [] => st
  | f :: _ =>
      match doc with
      | None => st
      | Some n =>
          {| loadedPDF :=
               Some {| file := f; name := file_name f; pages := n;
                       size := formatFileSize (file_size f);
                       arrayBuffer := file_arrayBuffer f |};
             selectedPages := JsSet.empty |}
      end
  end.

Definition togglePage (pageNumber : Z) (st : State) : State :=
  {| loadedPDF := loadedPDF st;
     selectedPages :=
       if JsSet.has pageNumber (selectedPages st)
       then JsSet.delete pageNumber (selectedPages st)
       else JsSet.add pageNumber (selectedPages st) |}.

Definition selectAll (st : State) : State :=
  match loadedPDF st with
  | None => st
  | Some pdf =>
      {| loadedPDF := loadedPDF st;
         selectedPages :=
           foldl (λ allPages i, JsSet.add i allPages) JsSet.empty
                 (seqZ 1 (pages pdf)) |}
  end.

Definition deselectAll (st : State) : State :=
  {| loadedPDF := loadedPDF st; selectedPages := JsSet.empty |}.

(** The selection handlers the page offers. *)
Inductive action :=
| TogglePage (pageNumber : Z)
| SelectAll
| DeselectAll.

Definition act (st : State) (a : action) : State :=
  match a with
  | TogglePage p => togglePage p st
  | SelectAll => selectAll st
  | DeselectAll => deselectAll st
  end.

(** An action the page rendered for [pdf] offers: there is a
    thumbnail for each page number from 1 to [pages]. *)
Definition offered (pdf : LoadedPDF) (a : action) : Prop :=
  match a with
  | TogglePage p => 1 ≤ p ≤ pages pdf
  | _ => True
  end.

(** The state a history of actions leads to once [pdf] is loaded
    (which leaves nothing selected). *)
Definition after (pdf : LoadedPDF) (h : list action) : State :=
  foldl act {| loadedPDF := Some pdf; selectedPages := JsSet.empty |} h.

(** The indices [handleSplit] hands to [copyPages]. *)
Definition pageIndices (selectedPages : JsSet) : list Z :=
  let sortedPages := sort (λ a b, a - b) selectedPages in
  map (λ p, p - 1) sortedPages.

Section Split.
(** A page of the PDF library, opaque to the application. *)
Context {Page : Type}.

(** [copyPages] of pdf-lib: one copy per index, in the order of the
    indices; [None] when it throws for an index outside the source
    document. *)
Definition copyPages (sourcePdf : list Page) (indices : list Z) : option (list Page) :=
  mapM (get sourcePdf) indices.

(** [handleSplit]: the pages of the document that is saved, in
    order; [None] when nothing is saved (no file, empty selection, or
    the library threw and the handler caught it).  [sourcePdf] is the
    document [PDFDocument.load] reads from [loadedPDF.arrayBuffer]. *)
Definition handleSplit (sourcePdf : list Page) (st : State) : option (list Page) :=
  match loadedPDF st with
  | None => None
  | Some _ =>
      if bool_decide (JsSet.size (selectedPages st) = 0) then None
      else
        copiedPages ← copyPages sourcePdf (pageIndices (selectedPages st));
        Some (foldl (λ newPdf page, newPdf ++ [page]) [] copiedPages)
  end.
End Split.

End SplitPDF.

(** ** The ProtectPDF page (src/unnamed/part_005) *)

Module ProtectPDF.
Import Js.

(** A JavaScript string as its UTF-16 code units, which is what
    [length] counts. *)
Abbreviation JsString := (list N).

Record LoadedPDF := {
  file : File;
  name : string;
  pages : Z;
  size : string;
  arrayBuffer : list Byte.byte
}.

Record State := {
  loadedPDF : option LoadedPDF;
  password : JsString;
  confirmPassword : JsString;
  isProcessing : bool;
  error : option string
}.

(** The argument of [pdfDoc.encrypt]. *)
Record Encryption := {
  userPassword : JsString;
  ownerPassword : JsString;
  printing : string;
  modifying : bool;
  copying : bool;
  annotating : bool;
  fillingForms : bool;
  contentAccessibility : bool;
  documentAssembly : bool
}.

(** [isValid], which enables the button. *)
Definition isValid (st : State) : bool :=
  bool_decide (len (password st) >= 4)
  && bool_decide (password st = confirmPassword st).

Section Protect.
(** The translation function of the page. *)
Context (t : string → string).

Definition with_error (st : State) (e : option string) : State :=
  {| loadedPDF := loadedPDF st; password := password st;
     confirmPassword := confirmPassword st; isProcessing := isProcessing st;
     error := e |}.

(** [handleProtect]: the new state, and the download (file name and
    encryption asked for), if any.  [saved] tells whether the library
    calls (load, encrypt, save) went through; when one throws the
    handler catches it. *)
Definition handleProtect (saved : bool) (st : State)
    : State * option (string * Encryption) :=
  match loadedPDF st with
  | None => (st, None)
  | Some pdf =>
      if bool_decide (password st = []) then (st, None)
      else if bool_decide (password st ≠ confirmPassword st)
      then (with_error st (Some (t "protect.passwordMismatch")), None)
      else if bool_decide (len (password st) < 4)
      then (with_error st (Some (t "protect.passwordTooShort")), None)
      else if saved then
        ({| loadedPDF := None; password := []; confirmPassword := [];
            isProcessing := false; error := None |},
         Some ("protected_" +:+ name pdf,
               {| userPassword := password st;
                  ownerPassword := password st;
                  printing := "highResolution";
                  modifying := false;
                  copying := false;
                  annotating := true;
                  fillingForms := true;
                  contentAccessibility := true;
                  documentAssembly := false |}))
      else
        ({| loadedPDF := loadedPDF st; password := password st;
            confirmPassword := confirmPassword st; isProcessing := false;
            error := Some (t "protect.errorProtecting") |}, None)
  end.
End Protect.

End ProtectPDF.

(** ** src/pages/PDFToImages.tsx *)

Module PDFToImages.
Import Js.

Inductive ImageFormat := png | jpeg.

(** The format as it is spliced into names and MIME types. *)
Definition formatName (f : ImageFormat) : string :=
  match f with
  | png => "png"
  | jpeg => "jpeg"
  end.

Record LoadedPDF := {
  file : File;
  name : string;
  pages : Z;
  size : string
}.

Record State := {
  loadedPDF : option LoadedPDF;
  format : ImageFormat;
  resolution : Z
}.

(** One download of [handleConvert]: the name of the link, and the
    MIME type and quality handed to [canvas.toDataURL]. *)
Record Download := {
  download : string;
  mime : string;
  quality : option Q
}.

(** The body of the loop of [handleConvert] over the page numbers
    still to do: [renders i] tells whether [getPage(i)] and the
    rendering of page [i] go through; when one throws the loop is
    left for the [catch].  The downloads started, and whether the loop
    ran to its end. *)
Fixpoint convertPages (renders : Z → bool) (format : ImageFormat)
    (pageNumbers : list Z) : list Download * bool :=
  match pageNumbers with
  | [] => ([], true)
  | i :: rest =>
      if renders i then
        let link :=
          {| download := "page_" +:+ toString i +:+ "." +:+ formatName format;
             mime := "image/" +:+ formatName format;
             quality := match format with
                        | jpeg => Some (9 # 10)%Q
                        | png => None
                        end |} in
        let '(links, finished) := convertPages renders format rest in
        (link :: links, finished)
      else ([], false)
  end.

(** [handleConvert]: the new state and the downloads started, in
    order.  [doc] is the number of pages [getDocument] finds in the
    file ([None] when it throws).  The file is taken off the page only
    when every page was downloaded; after a failure it stays. *)
Definition handleConvert (doc : option Z) (renders : Z → bool) (st : State)
    : State * list Download :=
  match loadedPDF st with
  | None => (st, [])
  | Some _ =>
      match doc with
      | None => (st, [])
      | Some numPages =>
          let '(links, finished) :=
            convertPages renders (format st) (seqZ 1 numPages) in
          (if finished
           then {| loadedPDF := None; format := format st;
                   resolution := resolution st |}
           else st,
           links)
      end
  end.

End PDFToImages.

(** ** The spec's OrderedSelectionList

    The identity-keyed list of the spec (its section 4.1), written
    after its words, for comparison with the index-keyed pages. *)

Module Spec.
Import Js.

Record OrderedSelectionList := {
  items : list string;
  selected : list string
}.

(** The current index of an identity. *)
Definition indexOf (identity : string) (l : list string) : Z :=
  findIndex (λ x, bool_decide (x = identity)) l.

(** [moveToPosition]: "removes the item from its current index and
    reinserts at newIndex (clamped to [0, length-1]); all other items
    shift accordingly"; [selected] is kept, since it is keyed by
    identity.  "Fails with NotFound if identity absent." *)
Definition moveToPosition (identity : string) (newIndex : Z)
    (l : OrderedSelectionList) : error + OrderedSelectionList :=
  let cur := indexOf identity (items l) in
  if bool_decide (cur < 0) then inl NotFound
  else
    let n := Z.to_nat (Z.max 0 (Z.min newIndex (len (items l) - 1))) in
    let rest := delete (Z.to_nat cur) (items l) in
    inr {| items := take n rest ++ identity :: drop n rest;
           selected := selected l |}.

(** [remove]: "removes the item; removes it from selected if present;
    positions of subsequent items shift down by one; all other
    identities in selected are unaffected.  Fails with NotFound if
    identity absent." *)
Definition remove (identity : string) (l : OrderedSelectionList)
    : error + OrderedSelectionList :=
  let cur := indexOf identity (items l) in
  if bool_decide (cur < 0) then inl NotFound
  else inr {| items := delete (Z.to_nat cur) (items l);
              selected := filter (λ x, x ≠ identity) (selected l) |}.

(** One [remove] after the other, for each of the identities in turn;
    the first failure ends it. *)
Definition removeAll (identities : list string) (l : OrderedSelectionList)
    : error + OrderedSelectionList :=
  foldl (λ acc identity,
           match acc with
           | inl e => inl e
           | inr l' => remove identity l'
           end) (inr l) identities.

(** Two lists agree as sets. *)
Definition same_set (s t : list string) : Prop := ∀ x, x ∈ s ↔ x ∈ t.

(** The identity-keyed view of an [EditPDF] state. *)
Definition view (ps : list EditPDF.PageInfo) (sel : JsSet) : OrderedSelectionList :=
  {| items := map EditPDF.id ps;
     selected := map EditPDF.id (EditPDF.selectedItems ps sel) |}.

End Spec.

(** ** Sample data *)

Module Examples.

Definition sample_file : File :=
  {| file_name := "sample.pdf"; file_size := 2048; file_arrayBuffer := [] |}.

(** A page of [EditPDF] whose id is [i], the [n]th page of the file. *)
Definition page (i : string) (n : Z) : EditPDF.PageInfo :=
  {| EditPDF.id := i; EditPDF.pageIndex := n; EditPDF.rotation := 0 |}.

Definition A := page "A" 0.
Definition B := page "B" 1.
Definition C := page "C" 2.
Definition D := page "D" 3.

Definition loaded (ps : list EditPDF.PageInfo) : EditPDF.LoadedPDF :=
  {| EditPDF.file := sample_file; EditPDF.name := "sample.pdf";
     EditPDF.size := "2.0 KB"; EditPDF.arrayBuffer := [];
     EditPDF.pages := ps |}.

(** [EditPDF] with the pages [ps] loaded and the indices [sel] selected. *)
Definition editing (ps : list EditPDF.PageInfo) (sel : list Z) : EditPDF.State :=
  {| EditPDF.loadedPDF := Some (loaded ps); EditPDF.selectedPages := sel |}.

(** A file of [MergePDF] whose id is [i]. *)
Definition pdf (i : string) : MergePDF.PDFFile :=
  {| MergePDF.id := i; MergePDF.file := sample_file; MergePDF.name := "sample.pdf";
     MergePDF.pages := 1; MergePDF.size := "2.0 KB"; MergePDF.arrayBuffer := [] |}.

(** An image of [ImagesToPDF] whose id is [i]. *)
Definition image (i : string) : ImagesToPDF.ImageFile :=
  {| ImagesToPDF.id := i; ImagesToPDF.file := sample_file;
     ImagesToPDF.name := "sample.png"; ImagesToPDF.size := "2.0 KB";
     ImagesToPDF.preview := "blob:sample" |}.

(** A file of [n] pages loaded in [SplitPDF]. *)
Definition split_file (n : Z) : SplitPDF.LoadedPDF :=
  {| SplitPDF.file := sample_file; SplitPDF.name := "sample.pdf";
     SplitPDF.pages := n; SplitPDF.size := "2.0 KB";
     SplitPDF.arrayBuffer := [] |}.

(** A session of [EditPDF]: a file of three pages is loaded, all pages
    are selected, the second page is moved up, the first is toggled
    off, the first is dragged onto the last, and the selected pages
    are deleted. *)
Definition session : list EditPDF.event :=
  [ EditPDF.FilesAdded [sample_file] (Some [0; 90; 0]) (λ _, 17);
    EditPDF.SelectAll;
    EditPDF.MovePageUp 1;
    EditPDF.TogglePage 0;
    EditPDF.DragEnd "page-1-17" (Some "page-2-17");
    EditPDF.DeleteSelectedPages ].

End Examples.

(** * Properties *)

(** ** Sets *)

Section JsSetFacts.
Import Js.
Implicit Types (s : JsSet) (x y : Z).

Lemma elem_of_add x y s : y ∈ JsSet.add x s ↔ y = x ∨ y ∈ s.
Proof.
  unfold JsSet.add, JsSet.has. case_bool_decide as Hx.
  - split; [auto | intros [-> | ?]; auto].
  - rewrite elem_of_app, list_elem_of_singleton. tauto.
Qed.

Lemma NoDup_add x s : NoDup s → NoDup (JsSet.add x s).
Proof.
  intros Hs. unfold JsSet.add, JsSet.has. case_bool_decide as Hx; [done |].
  apply NoDup_app. split_and!; [done | | apply NoDup_singleton].
  intros y Hy ->%list_elem_of_singleton. contradiction.
Qed.

Lemma elem_of_delete x y s : y ∈ JsSet.delete x s ↔ y ≠ x ∧ y ∈ s.
Proof. unfold JsSet.delete. apply (list_elem_of_filter (λ y, y ≠ x)). Qed.

Lemma NoDup_delete x s : NoDup s → NoDup (JsSet.delete x s).
Proof. apply NoDup_filter. Qed.

(** Adding the members of [l] one by one. *)
Lemma elem_of_foldl_add (f : Z → Z) (l : list Z) s y :
  y ∈ foldl (λ acc i, JsSet.add (f i) acc) s l ↔ y ∈ s ∨ ∃ i, i ∈ l ∧ f i = y.
Proof.
  revert s. induction l as [| a l IH]; intros s; simpl.
  - split; [auto | intros [? | (i & Hi & _)]; [done | by apply elem_of_nil in Hi]].
  - rewrite IH, elem_of_add. split.
    + intros [[-> | ?] | (i & Hi & <-)]; eauto.
      * right. exists a. split; [apply list_elem_of_here | done].
      * right. exists i. split; [by apply list_elem_of_further | done].
    + intros [? | (i & Hi & <-)]; [auto |].
      apply elem_of_cons in Hi as [-> | Hi]; [auto | eauto].
Qed.

Lemma NoDup_foldl_add (f : Z → Z) (l : list Z) s :
  NoDup s → NoDup (foldl (λ acc i, JsSet.add (f i) acc) s l).
Proof.
  revert s. induction l as [| a l IH]; intros s Hs; simpl; [done |].
  apply IH, NoDup_add, Hs.
Qed.

Lemma elem_of_forEach_add (f : Z → Z) s y :
  y ∈ JsSet.forEach_add f s ↔ ∃ i, i ∈ s ∧ f i = y.
Proof.
  unfold JsSet.forEach_add. rewrite elem_of_foldl_add.
  unfold JsSet.empty. split; [intros [H | H]; [by apply elem_of_nil in H | done] | auto].
Qed.

(** Adding members that are new and distinct appends them in order. *)
Lemma foldl_add_fresh (l : list Z) s :
  NoDup l → (∀ x, x ∈ l → x ∉ s) →
  foldl (λ acc i, JsSet.add i acc) s l = s ++ l.
Proof.
  revert s. induction l as [| a l IH]; intros s Hl Hs; simpl.
  - by rewrite app_nil_r.
  - apply NoDup_cons in Hl as [Ha Hl].
    assert (JsSet.add a s = s ++ [a]) as ->.
    { unfold JsSet.add, JsSet.has. case_bool_decide as Hin; [| done].
      exfalso. apply (Hs a); [apply list_elem_of_here | done]. }
    rewrite IH; [by rewrite <- app_assoc | done |].
    intros x Hx. rewrite elem_of_app, list_elem_of_singleton.
    intros [Hxs | ->]; [| done].
    apply (Hs x); [by apply list_elem_of_further | done].
Qed.
End JsSetFacts.

(** ** Arrays *)

Section ArrayFacts.
Import Js.
Context {A : Type}.
Implicit Types (l : list A) (i : Z).

Lemma get_nat l (k : nat) : get l (Z.of_nat k) = l !! k.
Proof.
  unfold get. rewrite bool_decide_eq_true_2 by lia. by rewrite Nat2Z.id.
Qed.

Lemma get_is_Some l i : is_Some (get l i) ↔ 0 ≤ i < len l.
Proof.
  unfold get, len. case_bool_decide as Hi.
  - rewrite lookup_lt_is_Some. lia.
  - split; [intros [? ?]; done | lia].
Qed.

(** *** [findIndex] *)

Lemma findIndex_from_found (p : A → bool) l k x :
  x ∈ l → p x = true →
  let r := findIndex_from p l k in
  k ≤ r < k + len l ∧ ∃ y, l !! Z.to_nat (r - k) = Some y ∧ p y = true.
Proof.
  revert k. induction l as [| a l IH]; intros k Hx Hp; simpl.
  - by apply elem_of_nil in Hx.
  - destruct (p a) eqn:Ha.
    + unfold len. simpl. split; [lia |].
      exists a. by rewrite Z.sub_diag.
    + apply elem_of_cons in Hx as [-> | Hx]; [congruence |].
      destruct (IH (k + 1) Hx Hp) as [Hr (y & Hy & Hpy)].
      unfold len in *. simpl. split; [lia |].
      exists y. split; [| done].
      replace (Z.to_nat (findIndex_from p l (k + 1) - k))
        with (S (Z.to_nat (findIndex_from p l (k + 1) - (k + 1)))) by lia.
      done.
Qed.

Lemma findIndex_from_absent (p : A → bool) l k :
  (∀ x, x ∈ l → p x = false) → findIndex_from p l k = -1.
Proof.
  revert k. induction l as [| a l IH]; intros k Hl; simpl; [done |].
  rewrite (Hl a) by apply list_elem_of_here.
  apply IH. intros x Hx. apply Hl. by apply list_elem_of_further.
Qed.

Lemma findIndex_found (p : A → bool) l x :
  x ∈ l → p x = true →
  0 ≤ findIndex p l < len l ∧
  ∃ y, get l (findIndex p l) = Some y ∧ p y = true.
Proof.
  intros Hx Hp. unfold findIndex.
  destruct (findIndex_from_found p l 0 x Hx Hp) as [Hr (y & Hy & Hpy)].
  split; [lia |]. exists y. split; [| done].
  unfold get. rewrite bool_decide_eq_true_2 by lia.
  by rewrite Z.sub_0_r in Hy.
Qed.

(** *** Moving one element *)

Lemma relativeStart_in_range l (k : nat) :
  (k ≤ length l)%nat → relativeStart l (Z.of_nat k) = k.
Proof.
  intros. unfold relativeStart, len.
  rewrite bool_decide_eq_false_2 by lia. lia.
Qed.

Lemma splice_move_in_range l (o n : nat) x :
  l !! o = Some x → (n < length l)%nat →
  splice_move (Z.of_nat o) (Z.of_nat n) l
  = take n (delete o l) ++ x :: drop n (delete o l).
Proof.
  intros Ho Hn. pose proof (lookup_lt_Some _ _ _ Ho) as Hlt.
  unfold splice_move, splice_delete1.
  rewrite relativeStart_in_range by lia. rewrite Ho.
  unfold splice_insert. rewrite relativeStart_in_range; [done |].
  rewrite length_delete by eauto. lia.
Qed.

Lemma arrayMove_in_range l (o n : nat) x :
  l !! o = Some x → (n < length l)%nat →
  arrayMove l (Z.of_nat o) (Z.of_nat n)
  = take n (delete o l) ++ x :: drop n (delete o l).
Proof.
  intros Ho Hn. rewrite <- (splice_move_in_range l o n x Ho Hn).
  unfold arrayMove, splice_move.
  by rewrite bool_decide_eq_false_2 by lia.
Qed.

(** Where the elements are after taking out [o] and putting it back
    at [n]. *)
Lemma lookup_reinsert l (o n j : nat) x :
  l !! o = Some x → (n < length l)%nat →
  (take n (delete o l) ++ x :: drop n (delete o l)) !! j
  = if decide (j = n) then Some x
    else if decide (j < n)%nat
         then (if decide (j < o)%nat then l !! j else l !! S j)
         else (if decide (j ≤ o)%nat then l !! (j - 1)%nat else l !! j).
Proof.
  intros Ho Hn. pose proof (lookup_lt_Some _ _ _ Ho) as Hlt.
  assert (length (take n (delete o l)) = n) as Htake.
  { rewrite length_take, length_delete by eauto. lia. }
  destruct (decide (j = n)) as [-> | Hjn].
  - rewrite lookup_app_r by lia. by rewrite Htake, Nat.sub_diag.
  - destruct (decide (j < n)%nat) as [Hlt' | Hge].
    + rewrite lookup_app_l by lia. rewrite lookup_take_lt by lia.
      destruct (decide (j < o)%nat).
      * by rewrite list_lookup_delete_lt.
      * by rewrite list_lookup_delete_ge by lia.
    + rewrite lookup_app_r by lia. rewrite Htake.
      replace (j - n)%nat with (S (j - n - 1)) by lia. simpl.
      rewrite lookup_drop. replace (n + (j - n - 1))%nat with (j - 1)%nat by lia.
      destruct (decide (j ≤ o)%nat).
      * by rewrite list_lookup_delete_lt by lia.
      * rewrite list_lookup_delete_ge by lia. f_equal. lia.
Qed.

Lemma length_reinsert l (o n : nat) x :
  l !! o = Some x → (n < length l)%nat →
  length (take n (delete o l) ++ x :: drop n (delete o l)) = length l.
Proof.
  intros Ho Hn. pose proof (lookup_lt_Some _ _ _ Ho) as Hlt.
  rewrite length_app. simpl.
  rewrite length_take, length_drop, length_delete by eauto. lia.
Qed.

(** *** Exchanging two elements *)

Lemma swap_lookup l (i j k : nat) x y :
  l !! i = Some x → l !! j = Some y →
  swap i j l !! k
  = if decide (k = j) then Some x
    else if decide (k = i) then Some y else l !! k.
Proof.
  intros Hi Hj. unfold swap. rewrite Hi, Hj.
  pose proof (lookup_lt_Some _ _ _ Hi). pose proof (lookup_lt_Some _ _ _ Hj).
  destruct (decide (k = j)) as [-> | ?].
  - rewrite list_lookup_insert_eq; [done |]. by rewrite length_insert.
  - rewrite list_lookup_insert_ne by done.
    destruct (decide (k = i)) as [-> | ?].
    + by rewrite list_lookup_insert_eq.
    + by rewrite list_lookup_insert_ne.
Qed.

Lemma swap_length l (i j : nat) : length (swap i j l) = length l.
Proof.
  unfold swap. destruct (l !! i), (l !! j); try done.
  by rewrite !length_insert.
Qed.

(** *** Filtering by index *)

Lemma elem_of_filter_index_from (keep : Z → bool) l k x :
  x ∈ filter_index_from keep l k ↔
  ∃ n : nat, l !! n = Some x ∧ keep (k + Z.of_nat n) = true.
Proof.
  revert k. induction l as [| a l IH]; intros k; simpl.
  - split; [intros H; by apply elem_of_nil in H | intros (n & Hn & _); done].
  - assert (x ∈ filter_index_from keep l (k + 1) ↔
            ∃ n : nat, l !! n = Some x ∧ keep (k + Z.of_nat (S n)) = true) as IH'.
    { rewrite IH. by setoid_rewrite <- (Z.add_assoc k 1); setoid_rewrite Nat2Z.inj_succ;
        setoid_rewrite <- Z.add_1_l. }
    destruct (keep k) eqn:Hk.
    + rewrite elem_of_cons, IH'. split.
      * intros [-> | (n & Hn & Hkeep)].
        -- exists 0%nat. by rewrite Z.add_0_r.
        -- by exists (S n).
      * intros ([| n] & Hn & Hkeep); simpl in Hn.
        -- left. congruence.
        -- right. by exists n.
    + rewrite IH'. split.
      * intros (n & Hn & Hkeep). by exists (S n).
      * intros ([| n] & Hn & Hkeep); simpl in Hn.
        -- rewrite Z.add_0_r in Hkeep. congruence.
        -- by exists n.
Qed.

Lemma elem_of_filter_index (keep : Z → bool) l x :
  x ∈ filter_index keep l ↔ ∃ i, get l i = Some x ∧ keep i = true.
Proof.
  unfold filter_index. rewrite elem_of_filter_index_from. split.
  - intros (n & Hn & Hk). exists (Z.of_nat n). by rewrite get_nat.
  - intros (i & Hi & Hk). unfold get in Hi. case_bool_decide; [| done].
    exists (Z.to_nat i). split; [done |]. by rewrite Z.add_0_l, Z2Nat.id.
Qed.

(** With distinct keys, [findIndex] by key finds the position of the
    element. *)
Lemma findIndex_from_NoDup {K} `{EqDecision K} (key : A → K) l (k : nat) (x : A) (j : Z) :
  NoDup (map key l) → l !! k = Some x →
  findIndex_from (λ y, bool_decide (key y = key x)) l j = j + Z.of_nat k.
Proof.
  revert k j. induction l as [| a l IH]; intros k j Hnd Hk; [done |].
  simpl in Hnd. apply NoDup_cons in Hnd as [Ha Hnd]. simpl.
  destruct k as [| k]; simpl in Hk.
  - injection Hk as ->. rewrite bool_decide_eq_true_2 by done. lia.
  - rewrite bool_decide_eq_false_2.
    + rewrite (IH k (j + 1)) by done. lia.
    + intros Heq. apply Ha. rewrite Heq.
      apply list_elem_of_fmap_2. by eapply list_elem_of_lookup_2.
Qed.

Lemma findIndex_NoDup {K} `{EqDecision K} (key : A → K) l (i : Z) (x : A) :
  NoDup (map key l) → get l i = Some x →
  findIndex (λ y, bool_decide (key y = key x)) l = i.
Proof.
  unfold get, findIndex. case_bool_decide; [| done]. intros Hnd Hx.
  rewrite (findIndex_from_NoDup key l (Z.to_nat i) x 0) by done. lia.
Qed.



End ArrayFacts.

(** ** EditPDF: reordering *)

Section EditReorder.
Import Js EditPDF.
Implicit Types (ps : list PageInfo) (sel : JsSet) (st : State).

(** An id of a page of [ps] is found at an index of [ps]. *)
Lemma findIndex_id ps (i : string) :
  i ∈ map id ps →
  0 ≤ findIndex (λ p, bool_decide (id p = i)) ps < len ps ∧
  ∃ p, get ps (findIndex (λ p, bool_decide (id p = i)) ps) = Some p ∧ id p = i.
Proof.
  intros (p & -> & Hp)%list_elem_of_fmap.
  destruct (findIndex_found (λ q, bool_decide (id q = id p)) ps p Hp)
    as [Hr (y & Hy & Hpy)]; [by apply bool_decide_eq_true_2 |].
  split; [done |]. exists y. split; [done |].
  by apply bool_decide_eq_true_1 in Hpy.
Qed.

(** The page at a selected index is found at the remapped index
    after the move. *)
Lemma get_arrayMove_dragRemap {A} (l : list A) (o n i : Z) :
  0 ≤ o < len l → 0 ≤ n < len l →
  get (arrayMove l o n) (dragRemap o n i) = get l i.
Proof.
  unfold len. intros Ho Hn.
  destruct (lookup_lt_is_Some_2 l (Z.to_nat o)) as [x Hx]; [lia |].
  rewrite <- (Z2Nat.id o), <- (Z2Nat.id n) by lia.
  rewrite (arrayMove_in_range l _ _ x Hx) by lia.
  rewrite !Z2Nat.id by lia.
  unfold dragRemap.
  repeat (case_bool_decide; simpl); unfold get;
    repeat case_bool_decide; try lia; try done;
    rewrite ?(lookup_reinsert l _ _ _ x Hx) by lia;
    repeat case_decide; try lia; try done;
    try (subst i; by rewrite Hx);
    try (f_equal; lia).
Qed.

Lemma arrayMove_in_range_Z {A} (l : list A) (o n : Z) x :
  get l o = Some x → 0 ≤ n < len l →
  arrayMove l o n
  = take (Z.to_nat n) (delete (Z.to_nat o) l)
    ++ x :: drop (Z.to_nat n) (delete (Z.to_nat o) l).
Proof.
  unfold get, len. case_bool_decide as Ho; [| done]. intros Hx Hn.
  pose proof (arrayMove_in_range l (Z.to_nat o) (Z.to_nat n) x Hx) as H.
  rewrite !Z2Nat.id in H by lia. apply H. lia.
Qed.

Lemma len_arrayMove {A} (l : list A) (o n : Z) :
  0 ≤ o < len l → 0 ≤ n < len l → len (arrayMove l o n) = len l.
Proof.
  unfold len. intros Ho Hn.
  destruct (lookup_lt_is_Some_2 l (Z.to_nat o)) as [x Hx]; [lia |].
  rewrite <- (Z2Nat.id o), <- (Z2Nat.id n) by lia.
  rewrite (arrayMove_in_range l _ _ x Hx) by lia.
  by rewrite (length_reinsert l _ _ x Hx) by lia.
Qed.

(** A remapping that sends every index to the place its page went
    to keeps the selected pages. *)
Lemma selectedItems_forEach_add ps ps' (f : Z → Z) sel :
  (∀ i, get ps' (f i) = get ps i) →
  ∀ x, x ∈ selectedItems ps' (JsSet.forEach_add f sel) ↔ x ∈ selectedItems ps sel.
Proof.
  intros Hf x. unfold selectedItems. rewrite !list_elem_of_omap. split.
  - intros (j & (i & Hi & <-)%elem_of_forEach_add & Hx).
    exists i. by rewrite <- Hf.
  - intros (i & Hi & Hx). exists (f i). split; [| by rewrite Hf].
    apply elem_of_forEach_add. eauto.
Qed.

(** [findIndex] on the pages and the spec's [indexOf] on their ids
    agree. *)
Lemma indexOf_ids ps (i : string) k :
  findIndex_from (λ x, bool_decide (x = i)) (map id ps) k
  = findIndex_from (λ p, bool_decide (id p = i)) ps k.
Proof.
  revert k. induction ps as [| p ps IH]; intros k; simpl; [done |].
  by rewrite IH.
Qed.
End EditReorder.

Section EditDragEnd.
Import Js EditPDF.

(** C1. After a drag that drops the page [active] on the page
    [over] (both rendered, and different), the pages are in the
    order the spec's [moveToPosition] gives to their ids, and the
    remapped index set selects exactly the pages that were selected
    before: the shift-if-between arithmetic of [handleDragEnd] is
    the same as keeping the selection by identity. *)
Theorem handleDragEnd_selection_follows_items
    (st : State) (pdf : LoadedPDF) (active over : string) :
  loadedPDF st = Some pdf →
  active ∈ map id (pages pdf) →
  over ∈ map id (pages pdf) →
  active ≠ over →
  ∃ pdf' osl,
    loadedPDF (handleDragEnd active (Some over) st) = Some pdf' ∧
    Spec.moveToPosition active (Spec.indexOf over (map id (pages pdf)))
      (Spec.view (pages pdf) (selectedPages st)) = inr osl ∧
    Spec.items osl = map id (pages pdf') ∧
    Spec.same_set (Spec.selected osl)
      (Spec.selected
         (Spec.view (pages pdf')
            (selectedPages (handleDragEnd active (Some over) st)))) ∧
    ∀ x, x ∈ selectedItems (pages pdf')
               (selectedPages (handleDragEnd active (Some over) st))
         ↔ x ∈ selectedItems (pages pdf) (selectedPages st).
Proof.
  intros Hpdf Hactive Hover Hne.
  destruct (findIndex_id _ _ Hactive) as [Ho (x & Hx & Hidx)].
  destruct (findIndex_id _ _ Hover) as [Hn _].
  set (o := findIndex (λ p, bool_decide (id p = active)) (pages pdf)) in *.
  set (n := findIndex (λ p, bool_decide (id p = over)) (pages pdf)) in *.
  assert (Hsel : ∀ y, y ∈ selectedItems (arrayMove (pages pdf) o n)
                        (JsSet.forEach_add (dragRemap o n) (selectedPages st))
                      ↔ y ∈ selectedItems (pages pdf) (selectedPages st)).
  { apply selectedItems_forEach_add. intros i.
    by apply get_arrayMove_dragRemap. }
  unfold handleDragEnd. rewrite bool_decide_eq_true_2 by done. rewrite Hpdf.
  fold o n. simpl.
  eexists _, _. split; [reflexivity |].
  unfold Spec.moveToPosition, Spec.indexOf, findIndex. simpl.
  rewrite !indexOf_ids. fold (findIndex (λ p, bool_decide (id p = active)) (pages pdf)).
  fold (findIndex (λ p, bool_decide (id p = over)) (pages pdf)). fold o n.
  rewrite bool_decide_eq_false_2 by lia.
  split; [reflexivity |]. simpl.
  split; [| split; [| done]].
  - rewrite (arrayMove_in_range_Z _ _ _ x Hx) by done.
    unfold len in *. rewrite length_fmap.
    replace (Z.max 0 (Z.min n (Z.of_nat (length (pages pdf)) - 1))) with n by lia.
    rewrite fmap_app, fmap_cons, fmap_take, fmap_drop, list_fmap_delete.
    by rewrite Hidx.
  - intros i. unfold Spec.view. simpl. rewrite !list_elem_of_fmap.
    split; intros (y & -> & Hy); exists y; (split; [done |]); by apply Hsel.
Qed.
End EditDragEnd.

Section EditDragEndExamples.
Import Js EditPDF Examples.

(** P2 of the spec: with [A; B; C; D] and B, D selected, dragging A
    onto the last page gives [B; C; D; A], and the selected indices
    [0; 2] are those of B and D. *)
Example handleDragEnd_P2 :
  handleDragEnd "A" (Some "D") (editing [A; B; C; D] [1; 3])
  = editing [B; C; D; A] [0; 2]
  ∧ selectedItems [B; C; D; A] [0; 2] = selectedItems [A; B; C; D] [1; 3].
Proof. split; reflexivity. Qed.

(** The scenario of the spec: X, Y, Z with Y and Z selected, X moved
    to the last position. *)
Example handleDragEnd_scenario :
  handleDragEnd "X" (Some "Z")
    (editing [page "X" 0; page "Y" 1; page "Z" 2] [1; 2])
  = editing [page "Y" 1; page "Z" 2; page "X" 0] [0; 1].
Proof. reflexivity. Qed.

Lemma handleDragEnd_selection_follows_items_witness :
  ∃ pdf' osl,
    loadedPDF (handleDragEnd "A" (Some "D") (editing [A; B; C; D] [1; 3]))
    = Some pdf' ∧
    Spec.moveToPosition "A" (Spec.indexOf "D" (map id [A; B; C; D]))
      (Spec.view [A; B; C; D] [1; 3]) = inr osl ∧
    Spec.items osl = map id (pages pdf') ∧
    Spec.same_set (Spec.selected osl)
      (Spec.selected
         (Spec.view (pages pdf')
            (selectedPages
               (handleDragEnd "A" (Some "D") (editing [A; B; C; D] [1; 3]))))) ∧
    ∀ x, x ∈ selectedItems (pages pdf')
               (selectedPages
                  (handleDragEnd "A" (Some "D") (editing [A; B; C; D] [1; 3])))
         ↔ x ∈ selectedItems [A; B; C; D] [1; 3].
Proof.
  apply (handleDragEnd_selection_follows_items
           (editing [A; B; C; D] [1; 3]) (loaded [A; B; C; D]) "A" "D").
  - reflexivity.
  - simpl. repeat constructor.
  - simpl. repeat constructor.
  - discriminate.
Defined.
End EditDragEndExamples.

(** ** EditPDF: moving a page by one *)

Section EditMoveByOne.
Import Js EditPDF.

Lemma get_swap_adjacent {A} (l : list A) (a j : Z) :
  0 ≤ a → a + 1 < len l →
  get (swap (Z.to_nat a) (Z.to_nat (a + 1)) l) j
  = if decide (j = a) then get l (a + 1)
    else if decide (j = a + 1) then get l a else get l j.
Proof.
  unfold len. intros Ha Hlen.
  destruct (lookup_lt_is_Some_2 l (Z.to_nat a)) as [x Hx]; [lia |].
  destruct (lookup_lt_is_Some_2 l (Z.to_nat (a + 1))) as [y Hy]; [lia |].
  assert (get l a = Some x) as ->.
  { unfold get. by rewrite bool_decide_eq_true_2 by lia. }
  assert (get l (a + 1) = Some y) as ->.
  { unfold get. by rewrite bool_decide_eq_true_2 by lia. }
  unfold get. case_bool_decide as Hj.
  - rewrite (swap_lookup l _ _ _ x y Hx Hy).
    repeat case_decide; try lia; done.
  - repeat case_decide; try lia; done.
Qed.

Lemma transposed_swap (ps : list PageInfo) (a : Z) :
  0 ≤ a → a + 1 < len ps →
  transposed a ps (swap (Z.to_nat a) (Z.to_nat (a + 1)) ps).
Proof.
  intros Ha Hlen. unfold transposed. split_and!.
  - unfold len. by rewrite swap_length.
  - rewrite get_swap_adjacent by done. by rewrite decide_True.
  - rewrite get_swap_adjacent by done.
    rewrite decide_False by lia. by rewrite decide_True.
  - intros j ? ?. rewrite get_swap_adjacent by done.
    by rewrite !decide_False.
Qed.

(** C6. An in-range [movePageUp] or [movePageDown] exchanges the
    page with its neighbour and leaves every other page in place, and
    the remapped selection selects the pages that were selected
    before. *)
Theorem movePage_adjacent_transposition
    (st : State) (pdf : LoadedPDF) (up down : Z) :
  loadedPDF st = Some pdf →
  1 ≤ up < len (pages pdf) →
  0 ≤ down < len (pages pdf) - 1 →
  (∃ pdf',
      loadedPDF (movePageUp up st) = Some pdf' ∧
      transposed (up - 1) (pages pdf) (pages pdf') ∧
      ∀ x, x ∈ selectedItems (pages pdf') (selectedPages (movePageUp up st))
           ↔ x ∈ selectedItems (pages pdf) (selectedPages st))
  ∧
  (∃ pdf',
      loadedPDF (movePageDown down st) = Some pdf' ∧
      transposed down (pages pdf) (pages pdf') ∧
      ∀ x, x ∈ selectedItems (pages pdf') (selectedPages (movePageDown down st))
           ↔ x ∈ selectedItems (pages pdf) (selectedPages st)).
Proof.
  intros Hpdf Hup Hdown. split.
  - unfold movePageUp. rewrite Hpdf, bool_decide_eq_false_2 by lia. simpl.
    eexists. split; [reflexivity |]. simpl.
    replace (Z.to_nat up) with (Z.to_nat (up - 1 + 1)) by lia.
    split; [apply transposed_swap; lia |].
    apply selectedItems_forEach_add. intros i.
    rewrite get_swap_adjacent by lia.
    repeat case_bool_decide; repeat case_decide; try lia; try done;
      f_equal; lia.
  - unfold movePageDown. rewrite Hpdf, bool_decide_eq_false_2 by lia. simpl.
    eexists. split; [reflexivity |]. simpl.
    split; [apply transposed_swap; lia |].
    apply selectedItems_forEach_add. intros i.
    rewrite get_swap_adjacent by lia.
    repeat case_bool_decide; repeat case_decide; try lia; try done;
      f_equal; lia.
Qed.
End EditMoveByOne.

Section EditMoveByOneExamples.
Import Js EditPDF Examples.

Example movePageUp_example :
  movePageUp 2 (editing [A; B; C; D] [2; 3]) = editing [A; C; B; D] [1; 3].
Proof. reflexivity. Qed.

Example movePageDown_example :
  movePageDown 0 (editing [A; B; C; D] [1; 3]) = editing [B; A; C; D] [0; 3].
Proof. reflexivity. Qed.

Lemma movePage_adjacent_transposition_witness :
  (∃ pdf',
      loadedPDF (movePageUp 2 (editing [A; B; C; D] [2; 3])) = Some pdf' ∧
      transposed (2 - 1) [A; B; C; D] (pages pdf') ∧
      ∀ x, x ∈ selectedItems (pages pdf')
                 (selectedPages (movePageUp 2 (editing [A; B; C; D] [2; 3])))
           ↔ x ∈ selectedItems [A; B; C; D] [2; 3])
  ∧
  (∃ pdf',
      loadedPDF (movePageDown 0 (editing [A; B; C; D] [2; 3])) = Some pdf' ∧
      transposed 0 [A; B; C; D] (pages pdf') ∧
      ∀ x, x ∈ selectedItems (pages pdf')
                 (selectedPages (movePageDown 0 (editing [A; B; C; D] [2; 3])))
           ↔ x ∈ selectedItems [A; B; C; D] [2; 3]).
Proof.
  apply (movePage_adjacent_transposition
           (editing [A; B; C; D] [2; 3]) (loaded [A; B; C; D]) 2 0).
  - reflexivity.
  - unfold len. simpl. lia.
  - unfold len. simpl. lia.
Defined.
End EditMoveByOneExamples.

(** ** EditPDF: the selection never dangles *)

Section EditInvariant.
Import Js EditPDF.
Implicit Types (st : State) (e : event).

Lemma no_dangling_loaded (pdf : LoadedPDF) (sel : JsSet) :
  (∀ i, i ∈ sel → 0 ≤ i < len (pages pdf)) →
  no_dangling {| loadedPDF := Some pdf; selectedPages := sel |}.
Proof. done. Qed.

Lemma no_dangling_empty (o : option LoadedPDF) :
  no_dangling {| loadedPDF := o; selectedPages := JsSet.empty |}.
Proof.
  unfold no_dangling. simpl. destruct o; [| done].
  intros i Hi. by apply elem_of_nil in Hi.
Qed.

Lemma dragRemap_in_range (L o n i : Z) :
  0 ≤ o < L → 0 ≤ n < L → 0 ≤ i < L → 0 ≤ dragRemap o n i < L.
Proof.
  intros. unfold dragRemap. repeat (case_bool_decide; simpl); lia.
Qed.

Lemma handleDragEnd_no_dangling st active over :
  no_dangling st → emits st (DragEnd active over) →
  no_dangling (handleDragEnd active over st).
Proof.
  intros Hinv [(pdf & Hpdf & Hactive) Hover].
  unfold handleDragEnd. destruct over as [over_id |]; [| done].
  case_bool_decide; [| done]. rewrite Hpdf.
  destruct (Hover over_id eq_refl) as (pdf2 & Hpdf2 & Hover_id).
  assert (pdf2 = pdf) as -> by congruence.
  destruct (findIndex_id _ _ Hactive) as [Ho _].
  destruct (findIndex_id _ _ Hover_id) as [Hn _].
  apply no_dangling_loaded. simpl.
  intros j (i & Hi & <-)%elem_of_forEach_add.
  rewrite len_arrayMove by done.
  apply dragRemap_in_range; [done | done |].
  unfold no_dangling in Hinv. rewrite Hpdf in Hinv. by apply Hinv.
Qed.

Lemma togglePage_no_dangling st i :
  no_dangling st → emits st (TogglePage i) → no_dangling (togglePage i st).
Proof.
  intros Hinv (pdf & Hpdf & Hi). unfold no_dangling in *.
  unfold togglePage. simpl. rewrite Hpdf in *.
  intros j. destruct (JsSet.has i (selectedPages st)).
  - intros [_ Hj]%elem_of_delete. by apply Hinv.
  - intros [-> | Hj]%elem_of_add; [done | by apply Hinv].
Qed.

Lemma selectAll_no_dangling st : no_dangling st → no_dangling (selectAll st).
Proof.
  intros Hinv. unfold selectAll. destruct (loadedPDF st) as [pdf |] eqn:Hpdf; [| done].
  rewrite <- Hpdf. unfold no_dangling. simpl. rewrite Hpdf.
  intros j [Hj | (i & Hi & <-)]%(elem_of_foldl_add (λ i, i)).
  - by apply elem_of_nil in Hj.
  - apply elem_of_seqZ in Hi. lia.
Qed.

Lemma rotatePages_no_dangling st d :
  no_dangling st → no_dangling (rotatePages d st).
Proof.
  intros Hinv. unfold rotatePages.
  destruct (loadedPDF st) as [pdf |] eqn:Hpdf; [| done].
  case_bool_decide; [done |].
  apply no_dangling_loaded. simpl. unfold len. rewrite length_imap.
  unfold no_dangling in Hinv. by rewrite Hpdf in Hinv.
Qed.

Lemma deleteSelectedPages_no_dangling st :
  no_dangling st → no_dangling (deleteSelectedPages st).1.
Proof.
  intros Hinv. unfold deleteSelectedPages.
  destruct (loadedPDF st) as [pdf |] eqn:Hpdf; [| done].
  repeat case_bool_decide; try done. simpl. apply no_dangling_empty.
Qed.

Lemma movePageUp_no_dangling st index :
  no_dangling st → emits st (MovePageUp index) →
  no_dangling (movePageUp index st).
Proof.
  intros Hinv (pdf & Hpdf & Hindex). unfold movePageUp. rewrite Hpdf.
  case_bool_decide; [done |].
  apply no_dangling_loaded. simpl. unfold len. rewrite swap_length.
  unfold no_dangling in Hinv. rewrite Hpdf in Hinv. unfold len in *.
  intros j (i & Hi%Hinv & <-)%elem_of_forEach_add.
  repeat case_bool_decide; lia.
Qed.

Lemma movePageDown_no_dangling st index :
  no_dangling st → emits st (MovePageDown index) →
  no_dangling (movePageDown index st).
Proof.
  intros Hinv (pdf & Hpdf & Hindex). unfold movePageDown. rewrite Hpdf.
  case_bool_decide; [done |].
  apply no_dangling_loaded. simpl. unfold len. rewrite swap_length.
  unfold no_dangling in Hinv. rewrite Hpdf in Hinv. unfold len in *.
  intros j (i & Hi%Hinv & <-)%elem_of_forEach_add.
  repeat case_bool_decide; lia.
Qed.

Lemma handleFilesAdded_no_dangling st files doc now :
  no_dangling st → no_dangling (handleFilesAdded files doc now st).
Proof.
  intros Hinv. unfold handleFilesAdded.
  destruct files as [| f files]; [done |]. destruct doc as [angles |]; [| done].
  apply no_dangling_empty.
Qed.

(** Every handler keeps the invariant on the events the page emits. *)
Lemma handle_no_dangling st e :
  no_dangling st → emits st e → no_dangling (handle st e).
Proof.
  intros Hinv He. destruct e; simpl.
  - by apply handleFilesAdded_no_dangling.
  - by apply handleDragEnd_no_dangling.
  - by apply togglePage_no_dangling.
  - by apply selectAll_no_dangling.
  - apply no_dangling_empty.
  - by apply rotatePages_no_dangling.
  - by apply deleteSelectedPages_no_dangling.
  - by apply movePageUp_no_dangling.
  - by apply movePageDown_no_dangling.
  - apply no_dangling_empty.
Qed.

Lemma run_no_dangling st (evs : list event) :
  no_dangling st → emitted st evs → no_dangling (run st evs).
Proof.
  revert st. induction evs as [| e evs IH]; intros st Hinv Hevs; simpl; [done |].
  destruct Hevs as [He Hevs]. apply IH; [by apply handle_no_dangling | done].
Qed.

(** C2. After every sequence of events the page emits (load,
    drag-reorder, toggle, select all, deselect all, rotate, delete
    selected, move by one, clear), every selected index is the index
    of a page: no handler leaves a dangling selection. *)
Theorem selection_never_dangles (evs : list event) :
  emitted initial evs →
  no_dangling (run initial evs) ∧
  ∀ i, i ∈ selectedPages (run initial evs) →
       ∃ pdf page, loadedPDF (run initial evs) = Some pdf ∧
                   get (pages pdf) i = Some page.
Proof.
  intros Hevs.
  assert (Hinv : no_dangling (run initial evs)).
  { apply run_no_dangling; [apply (no_dangling_empty None) | done]. }
  split; [done |]. intros i Hi. unfold no_dangling in Hinv.
  destruct (loadedPDF (run initial evs)) as [pdf |].
  - destruct (proj2 (get_is_Some (pages pdf) i) (Hinv i Hi)) as [page Hpage].
    by exists pdf, page.
  - rewrite Hinv in Hi. by apply elem_of_nil in Hi.
Qed.
End EditInvariant.

Section EditInvariantExamples.
Import Js EditPDF Examples.

Example session_run :
  map id <$> (pages <$> loadedPDF (run initial (firstn 5 session)))
  = Some ["page-0-17"; "page-2-17"; "page-1-17"]
  ∧ selectedPages (run initial (firstn 5 session)) = [0; 1]
  ∧ map id <$> (pages <$> loadedPDF (run initial session)) = Some ["page-1-17"]
  ∧ selectedPages (run initial session) = [].
Proof. vm_compute. done. Qed.

Lemma session_emitted : emitted initial session.
Proof.
  split; [exact I |]. split; [exact I |].
  split.
  { eexists. split; [reflexivity |]. vm_compute. split; [discriminate | reflexivity]. }
  split.
  { eexists. split; [reflexivity |]. vm_compute. split; [discriminate | reflexivity]. }
  split.
  { split.
    - eexists. split; [reflexivity |]. vm_compute. repeat constructor.
    - intros o [= <-]. eexists. split; [reflexivity |]. vm_compute. repeat constructor. }
  split; exact I.
Defined.

Lemma selection_never_dangles_witness :
  emitted initial session ∧
  no_dangling (run initial session) ∧
  ∀ i, i ∈ selectedPages (run initial session) →
       ∃ pdf page, loadedPDF (run initial session) = Some pdf ∧
                   get (pages pdf) i = Some page.
Proof.
  split; [exact session_emitted |].
  apply (selection_never_dangles session). exact session_emitted.
Defined.
End EditInvariantExamples.

(** ** EditPDF: select all, deselect all *)

Section EditSelectAll.
Import Js EditPDF.

Lemma selectAll_loaded (st : State) (pdf : LoadedPDF) :
  loadedPDF st = Some pdf →
  selectAll st
  = {| loadedPDF := Some pdf; selectedPages := seqZ 0 (len (pages pdf)) |}.
Proof.
  intros Hpdf. unfold selectAll. rewrite Hpdf. f_equal.
  rewrite (foldl_add_fresh (seqZ 0 (len (pages pdf))) JsSet.empty).
  - done.
  - apply NoDup_seqZ.
  - intros x _ Hx. by apply elem_of_nil in Hx.
Qed.

(** C8. [selectAll] twice is [selectAll] once, and what it selects
    is every index of the loaded pages, in order (nothing changes
    while no file is loaded); [deselectAll] leaves the empty selection
    whatever was selected. *)
Theorem selectAll_idempotent_deselectAll_constant (st : State) :
  selectAll (selectAll st) = selectAll st ∧
  match loadedPDF st with
  | Some pdf =>
      selectedPages (selectAll st) = seqZ 0 (len (pages pdf)) ∧
      ∀ i, i ∈ selectedPages (selectAll st) ↔ 0 ≤ i < len (pages pdf)
  | None => selectAll st = st
  end ∧
  selectedPages (deselectAll st) = JsSet.empty ∧
  loadedPDF (deselectAll st) = loadedPDF st.
Proof.
  destruct (loadedPDF st) as [pdf |] eqn:Hpdf.
  - rewrite (selectAll_loaded st pdf Hpdf).
    split; [by rewrite (selectAll_loaded _ pdf) |].
    split; [| done]. simpl. split; [done |].
    intros i. rewrite elem_of_seqZ. lia.
  - assert (selectAll st = st) as Hid by (unfold selectAll; by rewrite Hpdf).
    by rewrite !Hid.
Qed.
End EditSelectAll.

Section EditSelectAllExamples.
Import Js EditPDF Examples.

Example selectAll_example :
  selectAll (editing [A; B; C] [2]) = editing [A; B; C] [0; 1; 2]
  ∧ selectAll (selectAll (editing [A; B; C] [2])) = editing [A; B; C] [0; 1; 2]
  ∧ deselectAll (editing [A; B; C] [2; 0]) = editing [A; B; C] [].
Proof. repeat split. Qed.
End EditSelectAllExamples.

(** ** Removal *)

Section Removal.
Import Js.

Lemma elem_of_removeFiles (ids : list string) (files : list MergePDF.PDFFile) y :
  y ∈ foldl (λ fs i, MergePDF.removeFile i fs) files ids
  ↔ y ∈ files ∧ MergePDF.id y ∉ ids.
Proof.
  revert files. induction ids as [| i ids IH]; intros files; simpl.
  - split; [intros; split; [done | apply not_elem_of_nil] | tauto].
  - rewrite IH. unfold MergePDF.removeFile at 1.
    rewrite (list_elem_of_filter (λ f, MergePDF.id f ≠ i)), not_elem_of_cons.
    tauto.
Qed.

Lemma filter_index_from_sublist {A} (keep : Z → bool) (l : list A) k :
  filter_index_from keep l k `sublist_of` l.
Proof.
  revert k. induction l as [| a l IH]; intros k; simpl; [constructor |].
  destruct (keep k); [by apply sublist_skip | by apply sublist_cons].
Qed.
(** *** The spec's [remove] *)




End Removal.

Section RemovalClaims.
Import Js Examples.



(** P3 of the spec, and the pages at it.  The spec's [remove(A)] on
    [A; B; C] with A and C selected gives [B; C] with C selected;
    [removeFile] gives the same items; [EditPDF] removes A alone when
    A alone is selected, and with A and C selected it does
    [remove(A)] and [remove(C)]. *)
Example removal_P3 :
  Spec.remove "A" {| Spec.items := ["A"; "B"; "C"]; Spec.selected := ["A"; "C"] |}
  = inr {| Spec.items := ["B"; "C"]; Spec.selected := ["C"] |}
  ∧ map MergePDF.id (MergePDF.removeFile "A" [pdf "A"; pdf "B"; pdf "C"])
    = ["B"; "C"]
  ∧ EditPDF.deleteSelectedPages (editing [A; B; C] [0]) = (editing [B; C] [], None)
  ∧ EditPDF.deleteSelectedPages (editing [A; B; C] [0; 2]) = (editing [B] [], None)
  ∧ Spec.removeAll ["A"; "C"]
      {| Spec.items := ["A"; "B"; "C"]; Spec.selected := ["A"; "C"] |}
    = inr {| Spec.items := ["B"]; Spec.selected := [] |}.
Proof. repeat split. Qed.

(** C7, as the code has it.  [removeFile] can take out every file,
    one after the other, down to the empty list; [deleteSelectedPages]
    refuses a selection that is as large as the list of pages: it
    alerts and changes nothing. *)
Theorem removeFile_to_empty_deleteSelectedPages_refuses_all
    (files : list MergePDF.PDFFile)
    (st : EditPDF.State) (pdf : EditPDF.LoadedPDF) :
  EditPDF.loadedPDF st = Some pdf →
  0 < JsSet.size (EditPDF.selectedPages st) →
  len (EditPDF.pages pdf) ≤ JsSet.size (EditPDF.selectedPages st) →
  foldl (λ fs i, MergePDF.removeFile i fs) files (map MergePDF.id files) = [] ∧
  EditPDF.deleteSelectedPages st = (st, Some "Cannot delete all pages").
Proof.
  intros Hpdf Hsome Hall. split.
  - apply elem_of_nil_inv. intros y [Hy Hid]%elem_of_removeFiles.
    apply Hid. by apply list_elem_of_fmap_2.
  - unfold EditPDF.deleteSelectedPages. rewrite Hpdf.
    rewrite bool_decide_eq_false_2 by lia.
    by rewrite bool_decide_eq_true_2 by lia.
Qed.

Lemma removeFile_to_empty_deleteSelectedPages_refuses_all_witness :
  foldl (λ fs i, MergePDF.removeFile i fs) [pdf "A"; pdf "B"]
        (map MergePDF.id [pdf "A"; pdf "B"]) = [] ∧
  EditPDF.deleteSelectedPages (editing [A; B] [1; 0])
  = (editing [A; B] [1; 0], Some "Cannot delete all pages").
Proof.
  apply (removeFile_to_empty_deleteSelectedPages_refuses_all
           [pdf "A"; pdf "B"] (editing [A; B] [1; 0]) (loaded [A; B])).
  - reflexivity.
  - unfold JsSet.size. simpl. lia.
  - unfold len, JsSet.size. simpl. lia.
Defined.

(** Deleting the only page, or all pages, is rejected: the pages stay
    and the user is told so. *)
Lemma deleteSelectedPages_rejects_delete_all :
  EditPDF.deleteSelectedPages (editing [A] [0])
  = (editing [A] [0], Some "Cannot delete all pages")
  ∧ EditPDF.pages <$> EditPDF.loadedPDF
      (EditPDF.deleteSelectedPages (editing [A] [0])).1 ≠ Some [].
Proof. split; [reflexivity | discriminate]. Qed.

(** [handleDragEnd] does not look whether the ids it is handed are
    ids of items: [findIndex] answers [-1] for an id no item has, and
    [splice] takes [-1] for the last position. *)
Example handleDragEnd_unknown_id :
  findIndex (λ item, bool_decide (MergePDF.id item = "Z"))
            [pdf "A"; pdf "B"; pdf "C"] = -1
  ∧ MergePDF.handleDragEnd "Z" (Some "A") [pdf "A"; pdf "B"; pdf "C"]
    = [pdf "C"; pdf "A"; pdf "B"].
Proof. split; reflexivity. Qed.
End RemovalClaims.

(** ** Moving by one at the ends of the list *)

Section MoveAtBoundary.
Import Js Examples.

(** [moveFile] returns before it touches the list when the target is
    not an index of it. *)
Lemma moveFile_out_of_range (fromIndex toIndex : Z) (files : list MergePDF.PDFFile) :
  toIndex < 0 ∨ len files ≤ toIndex →
  MergePDF.moveFile fromIndex toIndex files = files.
Proof.
  intros Hto. unfold MergePDF.moveFile.
  destruct Hto.
  - by rewrite bool_decide_eq_true_2 by lia.
  - rewrite (bool_decide_eq_true_2 (toIndex >= len files)) by lia.
    by rewrite orb_true_r.
Qed.

(** Taking the last element out and putting it back one past the end
    gives the same list: [splice] clamps the position. *)
Lemma splice_move_last_past_end {A} (l : list A) (x : A) :
  splice_move (len (l ++ [x]) - 1) (len (l ++ [x])) (l ++ [x]) = l ++ [x].
Proof.
  unfold splice_move, splice_delete1.
  assert (relativeStart (l ++ [x]) (len (l ++ [x]) - 1) = length l) as ->.
  { unfold relativeStart, len. rewrite length_app. simpl.
    rewrite bool_decide_eq_false_2 by lia. lia. }
  rewrite list_lookup_middle by done.
  assert (delete (length l) (l ++ [x]) = l) as ->.
  { rewrite delete_take_drop, take_app_length.
    rewrite drop_ge; [by rewrite app_nil_r | rewrite length_app; simpl; lia]. }
  unfold splice_insert.
  assert (relativeStart l (len (l ++ [x])) = length l) as ->.
  { unfold relativeStart, len. rewrite length_app. simpl.
    rewrite bool_decide_eq_false_2 by lia. lia. }
  by rewrite take_ge, drop_ge by lia.
Qed.

(** C4.  A move by one whose target is past either end of the list
    changes nothing and raises nothing.  In [MergePDF], [moveFile]
    returns before it touches the list, and the arrow of the item at
    the end is disabled besides; in [ImagesToPDF] the arrow of the
    image at the end is disabled, so that [moveImage], which has no
    check of its own, is not called (past the upper end it would put
    the image back where it was); in [EditPDF], [movePageUp] and
    [movePageDown] return at the first and at the last page, and the
    selection stays as it is with the pages. *)
Theorem move_past_boundary_is_noop :
  (∀ (files : list MergePDF.PDFFile) (fromIndex toIndex : Z),
     toIndex < 0 ∨ len files - 1 < toIndex →
     MergePDF.moveFile fromIndex toIndex files = files) ∧
  (∀ (files : list MergePDF.PDFFile) (index : Z),
     0 ≤ index < len files →
     (index - 1 < 0 → MergePDF.onMoveUp index files = files) ∧
     (len files - 1 < index + 1 → MergePDF.onMoveDown index files = files)) ∧
  (∀ (images : list ImagesToPDF.ImageFile) (index : Z),
     0 ≤ index < len images →
     (index - 1 < 0 → ImagesToPDF.onMoveUp index images = images) ∧
     (len images - 1 < index + 1 →
      ImagesToPDF.onMoveDown index images = images ∧
      ImagesToPDF.moveImage index (index + 1) images = images)) ∧
  (∀ (st : EditPDF.State) (pdf : EditPDF.LoadedPDF) (index : Z),
     EditPDF.loadedPDF st = Some pdf →
     0 ≤ index < len (EditPDF.pages pdf) →
     (index - 1 < 0 → EditPDF.movePageUp index st = st) ∧
     (len (EditPDF.pages pdf) - 1 < index + 1 →
      EditPDF.movePageDown index st = st)).
Proof.
  split_and!.
  - intros files fromIndex toIndex Hto. apply moveFile_out_of_range. lia.
  - intros files index Hindex. unfold MergePDF.onMoveUp, MergePDF.onMoveDown.
    split; intros Hend; by rewrite bool_decide_eq_true_2 by lia.
  - intros images index Hindex.
    unfold ImagesToPDF.onMoveUp, ImagesToPDF.onMoveDown. split; intros Hend.
    + by rewrite bool_decide_eq_true_2 by lia.
    + split; [by rewrite bool_decide_eq_true_2 by lia |].
      unfold ImagesToPDF.moveImage.
      destruct (decide (images = [])) as [-> | Hne]; [unfold len in Hindex; simpl in Hindex; lia |].
      destruct (exists_last Hne) as (l & x & ->).
      assert (index = len (l ++ [x]) - 1) as -> by lia.
      replace (len (l ++ [x]) - 1 + 1) with (len (l ++ [x])) by lia.
      apply splice_move_last_past_end.
  - intros st pdf index Hpdf Hindex.
    unfold EditPDF.movePageUp, EditPDF.movePageDown. rewrite Hpdf.
    split; intros Hend; by rewrite bool_decide_eq_true_2 by lia.
Qed.

(** P5 of the spec in the three pages: three items, the first moved
    up and the last moved down. *)
Example move_past_boundary_P5 :
  MergePDF.onMoveUp 0 [pdf "A"; pdf "B"; pdf "C"] = [pdf "A"; pdf "B"; pdf "C"]
  ∧ MergePDF.moveFile 0 (0 - 1) [pdf "A"; pdf "B"; pdf "C"]
    = [pdf "A"; pdf "B"; pdf "C"]
  ∧ MergePDF.onMoveDown 2 [pdf "A"; pdf "B"; pdf "C"] = [pdf "A"; pdf "B"; pdf "C"]
  ∧ ImagesToPDF.onMoveUp 0 [image "A"; image "B"; image "C"]
    = [image "A"; image "B"; image "C"]
  ∧ ImagesToPDF.onMoveDown 2 [image "A"; image "B"; image "C"]
    = [image "A"; image "B"; image "C"]
  ∧ EditPDF.movePageUp 0 (editing [A; B; C] [0; 2]) = editing [A; B; C] [0; 2]
  ∧ EditPDF.movePageDown 2 (editing [A; B; C] [0; 2]) = editing [A; B; C] [0; 2].
Proof. repeat split. Qed.

(** [moveImage] itself, were it called for the first image with the
    target [-1], which the page does not do: [splice] counts [-1]
    from the end. *)
Example moveImage_unchecked :
  ImagesToPDF.moveImage 0 (0 - 1) [image "A"; image "B"; image "C"]
  = [image "B"; image "A"; image "C"].
Proof. reflexivity. Qed.
End MoveAtBoundary.

(** ** formatFileSize *)

Section FormatFileSize.
Import Js.

(** The characters of a string. *)
Lemma chars_append (s t : string) :
  String.list_ascii_of_string (s +:+ t)
  = String.list_ascii_of_string s ++ String.list_ascii_of_string t.
Proof.
  induction s as [| a s IH]; [done |].
  change (String.list_ascii_of_string (String a (s +:+ t))
          = String.list_ascii_of_string (String a s) ++ String.list_ascii_of_string t).
  simpl. by rewrite IH.
Qed.

(** Strings that end in different units are different. *)
Lemma unit_B_not_KB (s t : string) : s +:+ " B" ≠ t +:+ " KB".
Proof.
  intros H%(f_equal String.list_ascii_of_string).
  rewrite !chars_append in H. simpl in H.
  change (String.list_ascii_of_string t ++ [" "; "K"; "B"]%char)
    with (String.list_ascii_of_string t ++ [" "%char] ++ ["K"; "B"]%char) in H.
  rewrite (assoc_L (++)) in H.
  apply app_inj_2 in H as [_ [=]]. done.
Qed.

Lemma unit_B_not_MB (s t : string) : s +:+ " B" ≠ t +:+ " MB".
Proof.
  intros H%(f_equal String.list_ascii_of_string).
  rewrite !chars_append in H. simpl in H.
  change (String.list_ascii_of_string t ++ [" "; "M"; "B"]%char)
    with (String.list_ascii_of_string t ++ [" "%char] ++ ["M"; "B"]%char) in H.
  rewrite (assoc_L (++)) in H.
  apply app_inj_2 in H as [_ [=]]. done.
Qed.

Lemma unit_KB_not_MB (s t : string) : s +:+ " KB" ≠ t +:+ " MB".
Proof.
  intros H%(f_equal String.list_ascii_of_string).
  rewrite !chars_append in H. simpl in H.
  apply app_inj_2 in H as [_ [=]]. done.
Qed.

(** *** One decimal place *)

Lemma string_app_cons (a : ascii) (s t : string) :
  String a s +:+ t = String a (s +:+ t).
Proof. reflexivity. Qed.

Lemma string_app_assoc (s t u : string) : (s +:+ t) +:+ u = s +:+ (t +:+ u).
Proof.
  induction s as [| a s IH]; [done |].
  by rewrite !string_app_cons, IH.
Qed.

Lemma string_length_app (s t : string) :
  String.length (s +:+ t) = (String.length s + String.length t)%nat.
Proof.
  induction s as [| a s IH]; [done |].
  rewrite string_app_cons. simpl. by rewrite IH.
Qed.

Lemma substring_all (s : string) : String.substring 0 (String.length s) s = s.
Proof. induction s as [| a s IH]; [done |]. simpl. by rewrite IH. Qed.

Lemma substring_app_l (s t : string) :
  String.substring 0 (String.length s) (s +:+ t) = s.
Proof.
  induction s as [| a s IH]; [by destruct t |].
  rewrite string_app_cons. simpl. by rewrite IH.
Qed.

Lemma substring_app_r (s t : string) :
  String.substring (String.length s) (String.length t) (s +:+ t) = t.
Proof.
  induction s as [| a s IH]; [apply substring_all |].
  rewrite string_app_cons. simpl. apply IH.
Qed.

(** The digits of a number are the digits of its tenth followed by
    its last digit. *)
Lemma pretty_N_go_app (x : N) (s : string) :
  pretty_N_go x s = pretty_N_go x "" +:+ s.
Proof.
  revert s. induction (N.lt_wf_0 x) as [x _ IH]; intros s.
  destruct (decide (0 < x)%N) as [Hx | Hx].
  - rewrite !(pretty_N_go_step x) by done.
    assert (x `div` 10 < x)%N as Hlt by (apply N.div_lt; lia).
    rewrite (IH _ Hlt (String (pretty_N_char (x `mod` 10)) s)).
    rewrite (IH _ Hlt (String (pretty_N_char (x `mod` 10)) "")).
    by rewrite string_app_assoc.
  - assert (x = 0%N) as -> by lia. by rewrite !pretty_N_go_0.
Qed.

Lemma pretty_N_digits (x : N) :
  pretty x
  = if decide (x < 10)%N then String (pretty_N_char x) ""
    else pretty (x `div` 10)%N +:+ String (pretty_N_char (x `mod` 10)) "".
Proof.
  unfold pretty at 1, pretty_N. destruct (decide (x = 0%N)) as [-> | Hx]; [done |].
  rewrite pretty_N_go_step by lia. rewrite pretty_N_go_app.
  destruct (decide (x < 10)%N) as [Hlt | Hge].
  - rewrite N.div_small, N.mod_small by done. by rewrite pretty_N_go_0.
  - unfold pretty, pretty_N. rewrite decide_False; [done |].
    intros Hdiv. apply N.div_small_iff in Hdiv; lia.
Qed.

Lemma toString_N (n : Z) : 0 ≤ n → toString n = pretty (Z.to_N n).
Proof. intros Hn. destruct n as [| p | p]; [done | done | lia]. Qed.

Lemma toString_digits (n : Z) :
  0 ≤ n →
  toString n
  = if decide (n < 10) then digit n else toString (n `div` 10) +:+ digit (n `mod` 10).
Proof.
  intros Hn. rewrite toString_N, pretty_N_digits by done.
  destruct (decide (Z.to_N n < 10)%N), (decide (n < 10)); try lia; [done |].
  rewrite toString_N by (apply Z.div_pos; lia). unfold digit.
  by rewrite Z2N.inj_div, Z2N.inj_mod by lia.
Qed.

Lemma toString_digit (d : Z) : 0 ≤ d < 10 → toString d = digit d.
Proof. intros Hd. rewrite toString_digits by lia. by rewrite decide_True by lia. Qed.

(** [toFixed(1)] of a number that is not negative: the tenths [t]
    nearest to it, written as the digits of [t / 10], a point, and the
    digit [t mod 10]. *)
Lemma toFixed_one_decimal (x : Q) :
  0 ≤ Qnum x →
  toFixed x 1
  = toString (Qfloor (x * inject_Z 10 + (1 # 2))%Q `div` 10) +:+ "." +:+
    toString (Qfloor (x * inject_Z 10 + (1 # 2))%Q `mod` 10).
Proof.
  intros Hx. unfold toFixed.
  rewrite bool_decide_eq_false_2 by lia.
  assert (Qabs x = x) as -> by (destruct x as [n d]; simpl in *; by rewrite Z.abs_eq).
  change (10 ^ Z.of_nat 1) with 10.
  set (t := Qfloor (x * inject_Z 10 + (1 # 2))%Q).
  assert (0 ≤ t) as Ht.
  { unfold t. destruct x as [n d]. unfold Qfloor. simpl in *.
    apply Z.div_pos; lia. }
  rewrite (toString_digits t Ht).
  rewrite (toString_digit (t `mod` 10)) by (apply Z.mod_pos_bound; lia).
  destruct (decide (t < 10)) as [Hlt | Hge].
  - rewrite Z.div_small, Z.mod_small by lia. done.
  - rewrite string_length_app. simpl.
    rewrite bool_decide_eq_false_2.
    2:{ assert (String.length (toString (t `div` 10)) ≠ 0%nat); [| lia].
        rewrite toString_digits by (apply Z.div_pos; lia).
        case_decide; [done |]. rewrite string_length_app. simpl. lia. }
    rewrite !string_length_app. simpl.
    replace (String.length (toString (t `div` 10)) + 1 - 1)%nat
      with (String.length (toString (t `div` 10))) by lia.
    rewrite substring_app_l.
    pose proof (substring_app_r (toString (t `div` 10)) (digit (t `mod` 10))) as Hr.
    change (String.length (digit (t `mod` 10))) with 1%nat in Hr.
    by rewrite Hr.
Qed.

(** The tenths of a byte count over 1024 or 1048576. *)
Lemma tenths_of_bytes (bytes : Z) (unit : positive) :
  Qfloor (inject_Z bytes / inject_Z (Z.pos unit) * inject_Z 10 + (1 # 2))%Q
  = (20 * bytes + Z.pos unit) `div` (2 * Z.pos unit).
Proof.
  unfold Qfloor, Qdiv, Qmult, Qplus, Qinv, inject_Z. simpl.
  f_equal; lia.
Qed.

(** C9. [formatFileSize] has three forms and the byte count decides
    which: a plain count with [" B"] exactly below 1024, the count
    over 1024 to one decimal with [" KB"] exactly from 1024 up to
    (not including) 1048576, the count over 1048576 to one decimal
    with [" MB"] exactly from there on.  The decimal forms are the
    nearest tenth (halves go up) written with one digit after the
    point.  The copies of the function in the pages agree. *)
Theorem formatFileSize_partition (bytes : Z) :
  (bytes < 1024
   ↔ MergePDF.formatFileSize bytes = toString bytes +:+ " B") ∧
  (1024 ≤ bytes < 1048576
   ↔ MergePDF.formatFileSize bytes
     = toFixed (inject_Z bytes / inject_Z 1024)%Q 1 +:+ " KB") ∧
  (1048576 ≤ bytes
   ↔ MergePDF.formatFileSize bytes
     = toFixed (inject_Z bytes / inject_Z 1048576)%Q 1 +:+ " MB") ∧
  (1024 ≤ bytes < 1048576 →
   let t := (10 * bytes + 512) `div` 1024 in
   MergePDF.formatFileSize bytes
   = toString (t `div` 10) +:+ "." +:+ toString (t `mod` 10) +:+ " KB") ∧
  (1048576 ≤ bytes →
   let t := (10 * bytes + 524288) `div` 1048576 in
   MergePDF.formatFileSize bytes
   = toString (t `div` 10) +:+ "." +:+ toString (t `mod` 10) +:+ " MB") ∧
  SplitPDF.formatFileSize bytes = MergePDF.formatFileSize bytes ∧
  EditPDF.formatFileSize bytes = MergePDF.formatFileSize bytes ∧
  ImagesToPDF.formatFileSize bytes = MergePDF.formatFileSize bytes.
Proof.
  unfold MergePDF.formatFileSize. change (1024 * 1024) with 1048576.
  split_and!; [| | | | | done | done | done].
  - split.
    + intros. by rewrite bool_decide_eq_true_2.
    + repeat case_bool_decide; intros Heq; [done | |].
      * symmetry in Heq. by apply unit_B_not_KB in Heq.
      * symmetry in Heq. by apply unit_B_not_MB in Heq.
  - split.
    + intros. rewrite bool_decide_eq_false_2 by lia.
      by rewrite bool_decide_eq_true_2 by lia.
    + repeat case_bool_decide; intros Heq; [| lia |].
      * by apply unit_B_not_KB in Heq.
      * symmetry in Heq. by apply unit_KB_not_MB in Heq.
  - split.
    + intros. by rewrite !bool_decide_eq_false_2 by lia.
    + repeat case_bool_decide; intros Heq; [| | lia].
      * by apply unit_B_not_MB in Heq.
      * by apply unit_KB_not_MB in Heq.
  - intros Hrange. cbv zeta. set (t := (10 * bytes + 512) `div` 1024).
    rewrite bool_decide_eq_false_2 by lia.
    rewrite bool_decide_eq_true_2 by lia.
    rewrite toFixed_one_decimal by (simpl; lia).
    rewrite (tenths_of_bytes bytes 1024).
    replace ((20 * bytes + 1024) `div` (2 * 1024)) with t.
    + by rewrite !string_app_assoc.
    + unfold t. rewrite <- (Z.div_mul_cancel_r _ 1024 2) by lia. f_equal; lia.
  - intros Hrange. cbv zeta. set (t := (10 * bytes + 524288) `div` 1048576).
    rewrite !bool_decide_eq_false_2 by lia.
    rewrite toFixed_one_decimal by (simpl; lia).
    rewrite (tenths_of_bytes bytes 1048576).
    replace ((20 * bytes + 1048576) `div` (2 * 1048576)) with t.
    + by rewrite !string_app_assoc.
    + unfold t. rewrite <- (Z.div_mul_cancel_r _ 1048576 2) by lia. f_equal; lia.
Qed.
End FormatFileSize.

Section FormatFileSizeExamples.
Import Js.

Example formatFileSize_examples :
  map MergePDF.formatFileSize
      [0; 1023; 1024; 1075; 1076; 1536; 1048575; 1048576; 123456789]
  = ["0 B"; "1023 B"; "1.0 KB"; "1.0 KB"; "1.1 KB"; "1.5 KB"; "1024.0 KB";
     "1.0 MB"; "117.7 MB"].
Proof. vm_compute. reflexivity. Qed.
End FormatFileSizeExamples.

(** ** SplitPDF: the order of the output *)

Section SplitOrder.
Import Js SplitPDF.

#[local] Instance ordered_sub_total : Total (ordered (λ a b, a - b)).
Proof. intros a b. unfold ordered. lia. Qed.

#[local] Instance ordered_sub_trans : Transitive (ordered (λ a b, a - b)).
Proof. intros a b c. unfold ordered. lia. Qed.

#[local] Instance ordered_sub_antisym : AntiSymm (=) (ordered (λ a b, a - b)).
Proof. intros a b. unfold ordered. lia. Qed.

Lemma sort_Permutation (l : list Z) : sort (λ a b, a - b) l ≡ₚ l.
Proof. apply merge_sort_Permutation. Qed.

Lemma sort_Sorted (l : list Z) : Sorted Z.le (sort (λ a b, a - b) l).
Proof.
  rewrite <- (list_fmap_id (sort _ l)).
  apply (Sorted_fmap id (ordered (λ a b, a - b)) Z.le).
  - intros a b. unfold ordered. simpl. lia.
  - apply Sorted_merge_sort, _.
Qed.

(** Two selections with the same members sort to the same list,
    whatever the order the members were added in. *)
Lemma sort_same_members (l1 l2 : list Z) :
  NoDup l1 → NoDup l2 → (∀ x, x ∈ l1 ↔ x ∈ l2) →
  sort (λ a b, a - b) l1 = sort (λ a b, a - b) l2.
Proof.
  intros H1 H2 Hmem.
  apply (Sorted_unique (ordered (λ a b, a - b)));
    [apply Sorted_merge_sort, _ | apply Sorted_merge_sort, _ |].
  rewrite !sort_Permutation. by apply NoDup_Permutation.
Qed.

Lemma Sorted_le_NoDup_lt (l : list Z) : Sorted Z.le l → NoDup l → Sorted Z.lt l.
Proof.
  induction 1 as [| a l Hl IH Hhd]; intros Hnd; [constructor |].
  apply NoDup_cons in Hnd as [Ha Hnd]. constructor.
  - by apply IH.
  - destruct Hhd as [| b l' Hab]; constructor.
    assert (a ≠ b) by (intros ->; apply Ha, list_elem_of_here). lia.
Qed.

Lemma pageIndices_Sorted (sel : JsSet) : NoDup sel → Sorted Z.lt (pageIndices sel).
Proof.
  intros Hsel. unfold pageIndices.
  apply (Sorted_fmap (λ p, p - 1) Z.lt Z.lt); [intros a b; lia |].
  apply Sorted_le_NoDup_lt; [apply sort_Sorted |].
  by rewrite sort_Permutation.
Qed.

Lemma elem_of_pageIndices (sel : JsSet) i : i ∈ pageIndices sel ↔ i + 1 ∈ sel.
Proof.
  unfold pageIndices. rewrite list_elem_of_fmap. split.
  - intros (p & -> & Hp). rewrite sort_Permutation in Hp.
    by replace (p - 1 + 1) with p by lia.
  - intros Hi. exists (i + 1). split; [lia |]. by rewrite sort_Permutation.
Qed.

(** *** Histories of selection actions *)

Lemma act_loadedPDF (st : State) (a : action) : loadedPDF (act st a) = loadedPDF st.
Proof.
  destruct a; simpl; [done | | done].
  unfold selectAll. by destruct (loadedPDF st) eqn:Hpdf.
Qed.

Lemma act_NoDup (st : State) (a : action) :
  NoDup (selectedPages st) → NoDup (selectedPages (act st a)).
Proof.
  intros Hst. destruct a as [p | |]; simpl.
  - destruct (JsSet.has p (selectedPages st)); [by apply NoDup_delete | by apply NoDup_add].
  - unfold selectAll. destruct (loadedPDF st); [| done]. simpl.
    apply NoDup_foldl_add, NoDup_nil_2.
  - apply NoDup_nil_2.
Qed.

Lemma act_in_range (pdf : LoadedPDF) (st : State) (a : action) :
  loadedPDF st = Some pdf → offered pdf a →
  (∀ p, p ∈ selectedPages st → 1 ≤ p ≤ pages pdf) →
  ∀ p, p ∈ selectedPages (act st a) → 1 ≤ p ≤ pages pdf.
Proof.
  intros Hpdf Ha Hst p. destruct a as [q | |]; simpl.
  - destruct (JsSet.has q (selectedPages st)).
    + intros [_ Hp]%elem_of_delete. by apply Hst.
    + intros [-> | Hp]%elem_of_add; [done | by apply Hst].
  - unfold selectAll. rewrite Hpdf. simpl.
    intros [Hp | (i & Hi & <-)]%(elem_of_foldl_add (λ i, i)).
    + by apply elem_of_nil in Hp.
    + apply elem_of_seqZ in Hi. lia.
  - intros Hp. by apply elem_of_nil in Hp.
Qed.

Lemma history_invariant (pdf : LoadedPDF) (h : list action) (st : State) :
  loadedPDF st = Some pdf → NoDup (selectedPages st) →
  loadedPDF (foldl act st h) = Some pdf ∧ NoDup (selectedPages (foldl act st h)).
Proof.
  revert st. induction h as [| a h IH]; intros st Hpdf Hnd; simpl; [done |].
  apply IH; [by rewrite act_loadedPDF | by apply act_NoDup].
Qed.

Lemma history_in_range (pdf : LoadedPDF) (h : list action) (st : State) :
  loadedPDF st = Some pdf → Forall (offered pdf) h →
  (∀ p, p ∈ selectedPages st → 1 ≤ p ≤ pages pdf) →
  ∀ p, p ∈ selectedPages (foldl act st h) → 1 ≤ p ≤ pages pdf.
Proof.
  revert st. induction h as [| a h IH]; intros st Hpdf Hh Hst; simpl; [done |].
  apply Forall_cons in Hh as [Ha Hh].
  apply IH; [by rewrite act_loadedPDF | done | by apply (act_in_range pdf)].
Qed.

Lemma foldl_addPage {Page} (copiedPages newPdf : list Page) :
  foldl (λ newPdf page, newPdf ++ [page]) newPdf copiedPages = newPdf ++ copiedPages.
Proof.
  revert newPdf. induction copiedPages as [| page l IH]; intros newPdf; simpl.
  - by rewrite app_nil_r.
  - rewrite IH. by rewrite <- app_assoc.
Qed.

(** C10. Once a file is loaded, whatever selection history leads to
    a non-empty set of selected page numbers, [handleSplit] saves a
    document made of exactly the selected pages of the source in
    ascending page order; a second history that selects the same set
    gives the same document. *)
Theorem handleSplit_order_independent {Page : Type}
    (sourcePdf : list Page) (pdf : LoadedPDF) (h1 h2 : list action) :
  Forall (offered pdf) h1 →
  len sourcePdf = pages pdf →
  selectedPages (after pdf h1) ≠ [] →
  (∀ p, p ∈ selectedPages (after pdf h1) ↔ p ∈ selectedPages (after pdf h2)) →
  ∃ out,
    handleSplit sourcePdf (after pdf h1) = Some out ∧
    handleSplit sourcePdf (after pdf h2) = Some out ∧
    Forall2 (λ i page, get sourcePdf i = Some page)
            (pageIndices (selectedPages (after pdf h1))) out ∧
    Sorted Z.lt (pageIndices (selectedPages (after pdf h1))) ∧
    ∀ i, i ∈ pageIndices (selectedPages (after pdf h1))
         ↔ i + 1 ∈ selectedPages (after pdf h1).
Proof.
  intros Hh1 Hlen Hne Hsame. unfold after in *.
  set (s0 := {| loadedPDF := Some pdf; selectedPages := JsSet.empty |}) in *.
  destruct (history_invariant pdf h1 s0 eq_refl (NoDup_nil_2 (A:=Z))) as [Hpdf1 Hnd1].
  destruct (history_invariant pdf h2 s0 eq_refl (NoDup_nil_2 (A:=Z))) as [Hpdf2 Hnd2].
  assert (Hrange : ∀ p, p ∈ selectedPages (foldl act s0 h1) → 1 ≤ p ≤ pages pdf).
  { apply history_in_range; [done | done |].
    intros p Hp. by apply elem_of_nil in Hp. }
  set (sel1 := selectedPages (foldl act s0 h1)) in *.
  set (sel2 := selectedPages (foldl act s0 h2)) in *.
  assert (Hidx : pageIndices sel2 = pageIndices sel1).
  { unfold pageIndices. f_equal. symmetry. by apply sort_same_members. }
  assert (Hcopy : is_Some (copyPages sourcePdf (pageIndices sel1))).
  { apply mapM_is_Some, Forall_forall. intros i Hi%elem_of_pageIndices.
    apply get_is_Some. apply Hrange in Hi. lia. }
  destruct Hcopy as [out Hout].
  assert (Hne2 : sel2 ≠ []).
  { intros Hnil. destruct sel1 as [| p sel1'] eqn:Hsel1; [done |].
    assert (p ∈ sel2) as Hp by (apply Hsame, list_elem_of_here).
    rewrite Hnil in Hp. by apply elem_of_nil in Hp. }
  assert (Hsplit : ∀ st, loadedPDF st = Some pdf → selectedPages st ≠ [] →
            pageIndices (selectedPages st) = pageIndices sel1 →
            handleSplit sourcePdf st = Some out).
  { intros st Hpdf Hnonempty Heq. unfold handleSplit. rewrite Hpdf.
    rewrite bool_decide_eq_false_2.
    - rewrite Heq, Hout. simpl. by rewrite foldl_addPage.
    - unfold JsSet.size. destruct (selectedPages st); [done | simpl; lia]. }
  exists out. split_and!.
  - by apply Hsplit.
  - by apply Hsplit.
  - by apply mapM_Some_1.
  - by apply pageIndices_Sorted.
  - intros i. apply elem_of_pageIndices.
Qed.
End SplitOrder.

Section SplitOrderExamples.
Import Js SplitPDF Examples.

(** Pages 3 then 1, or all pages minus 2 and 4: the same document,
    page 1 then page 3. *)
Example handleSplit_example :
  selectedPages (after (split_file 4) [TogglePage 3; TogglePage 1]) = [3; 1]
  ∧ selectedPages (after (split_file 4) [SelectAll; TogglePage 2; TogglePage 4])
    = [1; 3]
  ∧ handleSplit ["p1"; "p2"; "p3"; "p4"]
      (after (split_file 4) [TogglePage 3; TogglePage 1]) = Some ["p1"; "p3"]
  ∧ handleSplit ["p1"; "p2"; "p3"; "p4"]
      (after (split_file 4) [SelectAll; TogglePage 2; TogglePage 4])
    = Some ["p1"; "p3"].
Proof. repeat split. Qed.

Lemma handleSplit_order_independent_witness :
  ∃ out,
    handleSplit ["p1"; "p2"; "p3"; "p4"]
      (after (split_file 4) [TogglePage 3; TogglePage 1]) = Some out ∧
    handleSplit ["p1"; "p2"; "p3"; "p4"]
      (after (split_file 4) [SelectAll; TogglePage 2; TogglePage 4]) = Some out ∧
    Forall2 (λ i page, get ["p1"; "p2"; "p3"; "p4"] i = Some page)
      (pageIndices
         (selectedPages (after (split_file 4) [TogglePage 3; TogglePage 1]))) out ∧
    Sorted Z.lt
      (pageIndices
         (selectedPages (after (split_file 4) [TogglePage 3; TogglePage 1]))) ∧
    ∀ i, i ∈ pageIndices
               (selectedPages (after (split_file 4) [TogglePage 3; TogglePage 1]))
         ↔ i + 1 ∈ selectedPages (after (split_file 4) [TogglePage 3; TogglePage 1]).
Proof.
  apply (handleSplit_order_independent
           ["p1"; "p2"; "p3"; "p4"] (split_file 4)
           [TogglePage 3; TogglePage 1] [SelectAll; TogglePage 2; TogglePage 4]).
  - repeat constructor; simpl; lia.
  - reflexivity.
  - discriminate.
  - intros p.
    change (selectedPages (after (split_file 4) [TogglePage 3; TogglePage 1]))
      with [3; 1].
    change (selectedPages
              (after (split_file 4) [SelectAll; TogglePage 2; TogglePage 4]))
      with [1; 3].
    rewrite !elem_of_cons, !elem_of_nil. tauto.
Defined.
End SplitOrderExamples.

(** * Further properties of the pages *)

(** ** Moves are permutations, and can be undone *)

Section MoveFacts.
Import Js.
Context {A : Type}.
Implicit Types (l : list A).

Lemma reinsert_Permutation l (o n : nat) x :
  l !! o = Some x →
  take n (delete o l) ++ x :: drop n (delete o l) ≡ₚ l.
Proof.
  intros Ho. rewrite <- Permutation_middle, take_drop.
  symmetry. by apply delete_Permutation.
Qed.

Lemma splice_move_Permutation l (o n : Z) :
  0 ≤ o < len l → 0 ≤ n < len l → splice_move o n l ≡ₚ l.
Proof.
  unfold len. intros Ho Hn.
  destruct (lookup_lt_is_Some_2 l (Z.to_nat o)) as [x Hx]; [lia |].
  rewrite <- (Z2Nat.id o), <- (Z2Nat.id n) by lia.
  rewrite (splice_move_in_range l _ _ x Hx) by lia.
  by apply reinsert_Permutation.
Qed.

Lemma arrayMove_Permutation l (o n : Z) :
  0 ≤ o < len l → 0 ≤ n < len l → arrayMove l o n ≡ₚ l.
Proof.
  unfold len. intros Ho Hn.
  destruct (lookup_lt_is_Some_2 l (Z.to_nat o)) as [x Hx]; [lia |].
  rewrite <- (Z2Nat.id o), <- (Z2Nat.id n) by lia.
  rewrite (arrayMove_in_range l _ _ x Hx) by lia.
  by apply reinsert_Permutation.
Qed.

(** In range, the splices of [moveFile] and the library's [arrayMove]
    do the same. *)
Lemma arrayMove_splice_move l (o n : Z) :
  0 ≤ o < len l → 0 ≤ n < len l → arrayMove l o n = splice_move o n l.
Proof.
  unfold len. intros Ho Hn.
  destruct (lookup_lt_is_Some_2 l (Z.to_nat o)) as [x Hx]; [lia |].
  rewrite <- (Z2Nat.id o), <- (Z2Nat.id n) by lia.
  rewrite (arrayMove_in_range l _ _ x Hx) by lia.
  by rewrite (splice_move_in_range l _ _ x Hx) by lia.
Qed.

(** Taking the element back from where it was put restores the
    list. *)
Lemma reinsert_round_trip l (o n : nat) x :
  l !! o = Some x → (n < length l)%nat →
  let moved := take n (delete o l) ++ x :: drop n (delete o l) in
  moved !! n = Some x ∧
  take o (delete n moved) ++ x :: drop o (delete n moved) = l.
Proof.
  intros Ho Hn moved. pose proof (lookup_lt_Some _ _ _ Ho) as Hlt.
  assert (length (take n (delete o l)) = n) as Htake.
  { rewrite length_take, length_delete by eauto. lia. }
  split.
  - unfold moved. rewrite lookup_app_r by lia. by rewrite Htake, Nat.sub_diag.
  - assert (delete n moved = delete o l) as ->.
    { unfold moved. rewrite <- Htake at 1. rewrite delete_middle. apply take_drop. }
    rewrite delete_take_drop.
    rewrite take_app_le by (rewrite length_take; lia).
    rewrite take_take, Nat.min_id.
    rewrite drop_app_ge by (rewrite length_take; lia).
    rewrite length_take, Nat.min_l, Nat.sub_diag by lia. simpl.
    by apply take_drop_middle.
Qed.

Lemma splice_move_round_trip l (o n : Z) :
  0 ≤ o < len l → 0 ≤ n < len l →
  splice_move n o (splice_move o n l) = l.
Proof.
  unfold len. intros Ho Hn.
  destruct (lookup_lt_is_Some_2 l (Z.to_nat o)) as [x Hx]; [lia |].
  rewrite <- (Z2Nat.id o), <- (Z2Nat.id n) by lia.
  rewrite (splice_move_in_range l _ _ x Hx) by lia.
  destruct (reinsert_round_trip l (Z.to_nat o) (Z.to_nat n) x Hx) as [Hn' Hback]; [lia |].
  rewrite (splice_move_in_range _ _ _ x Hn').
  - exact Hback.
  - rewrite (length_reinsert l _ _ x Hx) by lia. lia.
Qed.

(** Exchanging two neighbours is moving the second one before the
    first. *)
Lemma swap_adjacent_reinsert l (a : nat) y :
  l !! S a = Some y →
  swap a (S a) l = take a (delete (S a) l) ++ y :: drop a (delete (S a) l).
Proof.
  intros Hy. pose proof (lookup_lt_Some _ _ _ Hy) as Hlt.
  destruct (lookup_lt_is_Some_2 l a) as [x Hx]; [lia |].
  apply list_eq. intros k.
  rewrite (swap_lookup l _ _ _ x y Hx Hy).
  rewrite (lookup_reinsert l _ _ _ y Hy) by lia.
  repeat case_decide; try lia; try done.
  - subst k. by rewrite <- Hx, Nat.sub_succ, Nat.sub_0_r.
Qed.

Lemma swap_adjacent_Permutation l (a : nat) :
  (S a < length l)%nat → swap a (S a) l ≡ₚ l.
Proof.
  intros Hlt. destruct (lookup_lt_is_Some_2 l (S a)) as [y Hy]; [lia |].
  rewrite (swap_adjacent_reinsert l a y Hy). by apply reinsert_Permutation.
Qed.
End MoveFacts.

(** ** EditPDF: toggling and rotating *)

Section EditToggleRotate.
Import Js EditPDF.

Lemma has_true (x : Z) (s : JsSet) : JsSet.has x s = true ↔ x ∈ s.
Proof. unfold JsSet.has. apply bool_decide_eq_true. Qed.

Lemma has_false (x : Z) (s : JsSet) : JsSet.has x s = false ↔ x ∉ s.
Proof. unfold JsSet.has. apply bool_decide_eq_false. Qed.

(** A click on a page flips its membership in the selection and
    nothing else; a second click on the same page selects what was
    selected before. *)
Theorem togglePage_flips_one (st : State) (i : Z) :
  JsSet.has i (selectedPages (togglePage i st))
  = negb (JsSet.has i (selectedPages st)) ∧
  (∀ j, j ≠ i → j ∈ selectedPages (togglePage i st) ↔ j ∈ selectedPages st) ∧
  (∀ j, j ∈ selectedPages (togglePage i (togglePage i st)) ↔ j ∈ selectedPages st) ∧
  loadedPDF (togglePage i st) = loadedPDF st.
Proof.
  assert (Hone : ∀ s : JsSet,
    JsSet.has i (if JsSet.has i s then JsSet.delete i s else JsSet.add i s)
    = negb (JsSet.has i s) ∧
    ∀ j, j ≠ i →
      j ∈ (if JsSet.has i s then JsSet.delete i s else JsSet.add i s) ↔ j ∈ s).
  { intros s. destruct (JsSet.has i s) eqn:Hi; simpl.
    - split.
      + apply has_false. rewrite elem_of_delete. tauto.
      + intros j Hj. rewrite elem_of_delete. tauto.
    - split.
      + apply has_true. rewrite elem_of_add. tauto.
      + intros j Hj. rewrite elem_of_add. tauto. }
  unfold togglePage. simpl. split_and!; [apply Hone | apply Hone | | done].
  set (s1 := if JsSet.has i (selectedPages st)
             then JsSet.delete i (selectedPages st)
             else JsSet.add i (selectedPages st)).
  pose proof (Hone (selectedPages st)) as [H1 H1'].
  pose proof (Hone s1) as [H2 H2']. fold s1 in H1, H1'.
  intros j. destruct (decide (j = i)) as [-> | Hj].
  - rewrite <- !has_true. by rewrite H2, H1, negb_involutive.
  - rewrite H2' by done. by apply H1'.
Qed.

(** A quarter turn to the right and one to the left undo each other
    on angles from 0 to 359. *)
Lemma quarter_turns (r : Z) :
  0 ≤ r < 360 →
  0 ≤ Z.rem (r + 90 + 360) 360 < 360 ∧
  0 ≤ Z.rem (r + -90 + 360) 360 < 360 ∧
  Z.rem (Z.rem (r + 90 + 360) 360 + -90 + 360) 360 = r ∧
  Z.rem (Z.rem (r + -90 + 360) 360 + 90 + 360) 360 = r.
Proof.
  intros Hr.
  assert (Hturn : ∀ a, 0 ≤ a → Z.rem a 360 = a `mod` 360)
    by (intros; apply Z.rem_mod_nonneg; lia).
  assert (Hmod : ∀ a k, 0 ≤ a < 360 → (a + k * 360) `mod` 360 = a)
    by (intros; rewrite Z.mod_add, Z.mod_small; lia).
  rewrite (Hturn (r + 90 + 360)), (Hturn (r + -90 + 360)) by lia.
  destruct (decide (r < 90)); [| destruct (decide (r < 270))].
  - replace (r + 90 + 360) with (r + 90 + 1 * 360) by lia.
    replace (r + -90 + 360) with (r + 270 + 0 * 360) by lia.
    rewrite !Hmod by lia. rewrite !Hturn by lia.
    replace (r + 90 + -90 + 360) with (r + 1 * 360) by lia.
    replace (r + 270 + 90 + 360) with (r + 2 * 360) by lia.
    rewrite !Hmod by lia. lia.
  - replace (r + 90 + 360) with (r + 90 + 1 * 360) by lia.
    replace (r + -90 + 360) with (r - 90 + 1 * 360) by lia.
    rewrite !Hmod by lia. rewrite !Hturn by lia.
    replace (r + 90 + -90 + 360) with (r + 1 * 360) by lia.
    replace (r - 90 + 90 + 360) with (r + 1 * 360) by lia.
    rewrite !Hmod by lia. lia.
  - replace (r + 90 + 360) with (r - 270 + 2 * 360) by lia.
    replace (r + -90 + 360) with (r - 90 + 1 * 360) by lia.
    rewrite !Hmod by lia. rewrite !Hturn by lia.
    replace (r - 270 + -90 + 360) with (r + 0 * 360) by lia.
    replace (r - 90 + 90 + 360) with (r + 1 * 360) by lia.
    rewrite !Hmod by lia. lia.
Qed.
End EditToggleRotate.

Section EditRotate.
Import Js EditPDF Examples.

(** The pages after [rotatePages], position by position. *)
Lemma rotatePages_lookup (d : direction) (st : State) (pdf : LoadedPDF) :
  loadedPDF st = Some pdf →
  ∃ pdf',
    loadedPDF (rotatePages d st) = Some pdf' ∧
    selectedPages (rotatePages d st) = selectedPages st ∧
    ∀ k : nat,
      pages pdf' !! k
      = (λ page,
           if JsSet.has (Z.of_nat k) (selectedPages st)
           then {| id := id page; pageIndex := pageIndex page;
                   rotation :=
                     Z.rem (rotation page
                            + match d with left => -90 | right => 90 end
                            + 360) 360 |}
           else page) <$> pages pdf !! k.
Proof.
  intros Hpdf. unfold rotatePages. rewrite Hpdf. case_bool_decide as Hsize.
  - exists pdf. split_and!; [done | done |]. intros k.
    assert (selectedPages st = []) as ->.
    { unfold JsSet.size in Hsize. destruct (selectedPages st); [done | simpl in Hsize; lia]. }
    destruct (pages pdf !! k); done.
  - eexists. split_and!; [reflexivity | done |]. intros k. simpl.
    by rewrite list_lookup_imap.
Qed.

(** Rotating the selected pages to the right and then to the left,
    or the other way round, gives back the state, when the angles
    are between 0 and 359; they stay in that range, and the pages
    keep their ids, their page numbers and their order. *)
Theorem rotatePages_left_right (st : State) (pdf : LoadedPDF) :
  loadedPDF st = Some pdf →
  (∀ p, p ∈ pages pdf → 0 ≤ rotation p < 360) →
  rotatePages left (rotatePages right st) = st ∧
  rotatePages right (rotatePages left st) = st ∧
  ∀ d, ∃ pdf',
    loadedPDF (rotatePages d st) = Some pdf' ∧
    map id (pages pdf') = map id (pages pdf) ∧
    map pageIndex (pages pdf') = map pageIndex (pages pdf) ∧
    ∀ p, p ∈ pages pdf' → 0 ≤ rotation p < 360.
Proof.
  intros Hpdf Hrange.
  assert (Hback : ∀ d1 d2, d1 ≠ d2 → rotatePages d2 (rotatePages d1 st) = st).
  { intros d1 d2 Hd. destruct st as [o sel]. simpl in Hpdf. subst o.
    unfold rotatePages. simpl. case_bool_decide as Hsize; simpl.
    - by rewrite bool_decide_eq_true_2.
    - rewrite bool_decide_eq_false_2 by done.
      destruct pdf as [pf pn psz pab ps]. unfold with_pages. simpl in *.
      do 3 f_equal.
      apply list_eq. intros k. rewrite !list_lookup_imap.
      destruct (ps !! k) as [p |] eqn:Hp; [| done]. simpl. f_equal.
      destruct (JsSet.has (Z.of_nat k) sel); [| done].
      pose proof (quarter_turns (rotation p)
                    (Hrange p (list_elem_of_lookup_2 _ _ _ Hp))) as (_ & _ & Hrl & Hlr).
      destruct p as [pid pidx prot]. simpl in *.
      destruct d1, d2; try done; f_equal; done. }
  split; [by apply Hback |]. split; [by apply Hback |].
  intros d. destruct (rotatePages_lookup d st pdf Hpdf) as (pdf' & Hpdf' & _ & Hlook).
  exists pdf'. split; [done |].
  assert (Hlen : length (pages pdf') = length (pages pdf)).
  { apply Nat.le_antisymm; apply Nat.nlt_ge; intros Hlt.
    - destruct (lookup_lt_is_Some_2 (pages pdf') (length (pages pdf))) as [x Hx]; [lia |].
      rewrite Hlook, (lookup_ge_None_2 (pages pdf)) in Hx by lia. done.
    - destruct (lookup_lt_is_Some_2 (pages pdf) (length (pages pdf'))) as [x Hx]; [lia |].
      pose proof (Hlook (length (pages pdf'))) as Hk.
      rewrite Hx, lookup_ge_None_2 in Hk by lia. done. }
  split_and!.
  - apply list_eq. intros k. rewrite !list_lookup_fmap, Hlook.
    destruct (pages pdf !! k); [| done]. simpl.
    by destruct (JsSet.has (Z.of_nat k) (selectedPages st)).
  - apply list_eq. intros k. rewrite !list_lookup_fmap, Hlook.
    destruct (pages pdf !! k); [| done]. simpl.
    by destruct (JsSet.has (Z.of_nat k) (selectedPages st)).
  - intros p (k & Hk)%list_elem_of_lookup_1. rewrite Hlook in Hk.
    destruct (pages pdf !! k) as [q |] eqn:Hq; [| done]. simpl in Hk.
    pose proof (Hrange q (list_elem_of_lookup_2 _ _ _ Hq)) as Hqr.
    pose proof (quarter_turns (rotation q) Hqr) as (Hr & Hl & _ & _).
    destruct (JsSet.has (Z.of_nat k) (selectedPages st)); injection Hk as <-;
      [| done]. simpl. by destruct d.
Qed.

Lemma rotatePages_left_right_witness :
  rotatePages left (rotatePages right (editing [A; B; C] [0; 2]))
  = editing [A; B; C] [0; 2] ∧
  rotatePages right (rotatePages left (editing [A; B; C] [0; 2]))
  = editing [A; B; C] [0; 2] ∧
  ∀ d, ∃ pdf',
    loadedPDF (rotatePages d (editing [A; B; C] [0; 2])) = Some pdf' ∧
    map id (pages pdf') = map id [A; B; C] ∧
    map pageIndex (pages pdf') = map pageIndex [A; B; C] ∧
    ∀ p, p ∈ pages pdf' → 0 ≤ rotation p < 360.
Proof.
  apply (rotatePages_left_right (editing [A; B; C] [0; 2]) (loaded [A; B; C])).
  - reflexivity.
  - intros p Hp. simpl in Hp.
    repeat (apply elem_of_cons in Hp as [-> | Hp]; [simpl; lia |]).
    by apply elem_of_nil in Hp.
Defined.
End EditRotate.

(** ** EditPDF: ids, page numbers and selected indices stay distinct *)

Section EditDistinct.
Import Js EditPDF.
Implicit Types (st : State) (e : event).

Lemma chars_inj (s t : string) :
  String.list_ascii_of_string s = String.list_ascii_of_string t → s = t.
Proof.
  intros H%(f_equal String.string_of_list_ascii).
  by rewrite !String.string_of_list_ascii_of_string in H.
Qed.



Lemma digit_no_minus (d : Z) :
  0 ≤ d < 10 → "-"%char ∉ String.list_ascii_of_string (digit d).
Proof.
  intros Hd.
  assert (d = 0 ∨ d = 1 ∨ d = 2 ∨ d = 3 ∨ d = 4 ∨ d = 5 ∨ d = 6 ∨ d = 7
          ∨ d = 8 ∨ d = 9) as Hcases by lia.
  destruct_or!; subst d; intros Hin%list_elem_of_singleton; discriminate Hin.
Qed.

(** The decimal digits of a number that is not negative have no
    minus sign among them. *)
Lemma toString_no_minus (n : Z) :
  0 ≤ n → "-"%char ∉ String.list_ascii_of_string (toString n).
Proof.
  intros Hn. revert n Hn. apply (Zlt_0_ind (λ n, _ ∉ _)). intros n IH Hn.
  rewrite toString_digits by done. destruct (decide (n < 10)).
  - apply digit_no_minus. lia.
  - rewrite chars_append, not_elem_of_app. split.
    + apply IH. split; [apply Z.div_pos; lia | apply Z.div_lt; lia].
    + apply digit_no_minus. apply Z.mod_pos_bound. lia.
Qed.

Lemma app_separator_inj {A} (c : A) (l1 l2 r1 r2 : list A) :
  c ∉ l1 → c ∉ l2 → l1 ++ c :: r1 = l2 ++ c :: r2 → l1 = l2.
Proof.
  revert l2. induction l1 as [| a l1 IH]; intros [| b l2] H1 H2 Heq; simpl in *.
  - done.
  - injection Heq as <- _. by apply not_elem_of_cons in H2 as [? _].
  - injection Heq as -> _. by apply not_elem_of_cons in H1 as [? _].
  - injection Heq as -> Heq. f_equal.
    apply not_elem_of_cons in H1 as [_ H1]. apply not_elem_of_cons in H2 as [_ H2].
    by apply IH.
Qed.

(** A count followed by a minus sign and anything: different counts,
    different strings, whatever follows. *)
Lemma counted_name_inj (before s t : string) (i j : Z) :
  0 ≤ i → 0 ≤ j →
  before +:+ toString i +:+ "-" +:+ s = before +:+ toString j +:+ "-" +:+ t →
  i = j.
Proof.
  intros Hi Hj H%(inj (String.app before))%(f_equal String.list_ascii_of_string).
  rewrite !chars_append in H. simpl in H.
  apply app_separator_inj in H; [| by apply toString_no_minus..].
  apply chars_inj in H. unfold toString in H. by apply (inj pretty) in H.
Qed.

Lemma map_imap_key {A K} (key : A → K) (g : nat → A → A) (l : list A) :
  (∀ k x, key (g k x) = key x) → map key (imap g l) = map key l.
Proof.
  intros Hkey. apply list_eq. intros k.
  rewrite !list_lookup_fmap, list_lookup_imap.
  destruct (l !! k); [| done]. simpl. by rewrite Hkey.
Qed.

Lemma handleFilesAdded_distinct st files doc now :
  distinct st → distinct (handleFilesAdded files doc now st).
Proof.
  intros Hst. unfold handleFilesAdded.
  destruct files as [| f files]; [done |]. destruct doc as [angles |]; [| done].
  split; [apply NoDup_nil_2 |]. simpl. split.
  - apply NoDup_alt. intros i j x.
    rewrite !list_lookup_fmap, !list_lookup_imap.
    destruct (angles !! i), (angles !! j); try done. simpl.
    intros [= <-] [= Hid]. apply counted_name_inj in Hid; lia.
  - apply NoDup_alt. intros i j x.
    rewrite !list_lookup_fmap, !list_lookup_imap.
    destruct (angles !! i), (angles !! j); try done. simpl.
    intros [= <-] [= Hidx]. lia.
Qed.

Lemma handleDragEnd_distinct st active over :
  distinct st → emits st (DragEnd active over) →
  distinct (handleDragEnd active over st).
Proof.
  intros [Hsel Hpages] [(pdf & Hpdf & Hactive) Hover].
  unfold handleDragEnd. destruct over as [over_id |]; [| done].
  case_bool_decide; [| done]. rewrite Hpdf in *.
  destruct (Hover over_id eq_refl) as (pdf2 & Hpdf2 & Hover_id).
  assert (pdf2 = pdf) as -> by congruence.
  destruct (findIndex_id _ _ Hactive) as [Ho _].
  destruct (findIndex_id _ _ Hover_id) as [Hn _].
  split; simpl.
  - apply NoDup_foldl_add, NoDup_nil_2.
  - by rewrite !arrayMove_Permutation.
Qed.

Lemma movePageUp_distinct st index :
  distinct st → emits st (MovePageUp index) → distinct (movePageUp index st).
Proof.
  intros [Hsel Hpages] (pdf & Hpdf & Hindex). unfold movePageUp.
  rewrite Hpdf in *. case_bool_decide; [split; [done | by rewrite Hpdf] |].
  split; simpl; [apply NoDup_foldl_add, NoDup_nil_2 |].
  unfold len in Hindex.
  replace (Z.to_nat index) with (S (Z.to_nat (index - 1))) by lia.
  rewrite !swap_adjacent_Permutation by lia. done.
Qed.

Lemma movePageDown_distinct st index :
  distinct st → emits st (MovePageDown index) → distinct (movePageDown index st).
Proof.
  intros [Hsel Hpages] (pdf & Hpdf & Hindex). unfold movePageDown.
  rewrite Hpdf in *. case_bool_decide; [split; [done | by rewrite Hpdf] |].
  split; simpl; [apply NoDup_foldl_add, NoDup_nil_2 |].
  unfold len in *.
  replace (Z.to_nat (index + 1)) with (S (Z.to_nat index)) by lia.
  rewrite !swap_adjacent_Permutation by lia. done.
Qed.

Lemma handle_distinct st e : distinct st → emits st e → distinct (handle st e).
Proof.
  intros Hst He.
  destruct e as [files doc now | active over | i | | | d | | index | index |]; simpl.
  - by apply handleFilesAdded_distinct.
  - by apply handleDragEnd_distinct.
  - destruct Hst as [Hsel Hpages]. split; [| done]. simpl.
    destruct (JsSet.has i (selectedPages st));
      [by apply NoDup_delete | by apply NoDup_add].
  - destruct Hst as [Hsel Hpages]. unfold selectAll.
    destruct (loadedPDF st) as [pdf |] eqn:Hpdf;
      [| by split; [| rewrite Hpdf] ].
    split; simpl; [apply NoDup_foldl_add, NoDup_nil_2 | done].
  - destruct Hst as [Hsel Hpages]. split; [apply NoDup_nil_2 | done].
  - destruct Hst as [Hsel Hpages]. unfold rotatePages.
    destruct (loadedPDF st) as [pdf |] eqn:Hpdf;
      [| by split; [| rewrite Hpdf] ].
    case_bool_decide; [by split; [| rewrite Hpdf] |].
    split; [done |]. simpl.
    rewrite !map_imap_key; [done | |];
      intros k x; by destruct (JsSet.has (Z.of_nat k) (selectedPages st)).
  - destruct Hst as [Hsel Hpages]. unfold deleteSelectedPages.
    destruct (loadedPDF st) as [pdf |] eqn:Hpdf;
      [| simpl; by split; [| rewrite Hpdf] ].
    repeat case_bool_decide; simpl; try (by split; [| rewrite Hpdf]).
    split; [apply NoDup_nil_2 |]. simpl.
    destruct Hpages as [Hid Hidx].
    split; (eapply sublist_NoDup; [eassumption |]);
      apply fmap_sublist, filter_index_from_sublist.
  - by apply movePageUp_distinct.
  - by apply movePageDown_distinct.
  - split; [apply NoDup_nil_2 | done].
Qed.

Lemma run_distinct st (evs : list event) :
  distinct st → emitted st evs → distinct (run st evs).
Proof.
  revert st. induction evs as [| e evs IH]; intros st Hst Hevs; simpl; [done |].
  destruct Hevs as [He Hevs]. apply IH; [by apply handle_distinct | done].
Qed.

(** After every sequence of events the page emits, no two pages have
    the same id, no page of the file occurs twice, and no index is
    selected twice. *)
Theorem pages_stay_distinct (evs : list event) :
  emitted initial evs →
  NoDup (selectedPages (run initial evs)) ∧
  ∀ pdf, loadedPDF (run initial evs) = Some pdf →
         NoDup (map id (pages pdf)) ∧ NoDup (map pageIndex (pages pdf)).
Proof.
  intros Hevs.
  assert (Hd : distinct (run initial evs)).
  { apply run_distinct; [| done]. split; [apply NoDup_nil_2 | done]. }
  destruct Hd as [Hsel Hpages]. split; [done |].
  intros pdf Hpdf. by rewrite Hpdf in Hpages.
Qed.
End EditDistinct.

Section EditDistinctExamples.
Import Js EditPDF Examples.

Lemma pages_stay_distinct_witness :
  let evs := [FilesAdded [sample_file] (Some [0; 90; 180])
                (λ i, 1700000000000 + Z.of_nat (i / 2));
              TogglePage 2; MovePageUp 2; RotatePages right;
              DragEnd "page-0-1700000000000" (Some "page-2-1700000000001")] in
  NoDup (selectedPages (run initial evs)) ∧
  ∀ pdf, loadedPDF (run initial evs) = Some pdf →
         NoDup (map id (pages pdf)) ∧ NoDup (map pageIndex (pages pdf)).
Proof.
  intros evs. apply (pages_stay_distinct evs).
  unfold evs. cbn [emitted emits handle]. unfold rendered_index, rendered_id.
  split_and!; try done;
    first
      [ eexists; split; [reflexivity | unfold len; simpl; lia]
      | eexists; split;
          [reflexivity | apply (bool_decide_unpack _); vm_compute; exact I]
      | intros o [= <-]; eexists; split;
          [reflexivity | apply (bool_decide_unpack _); vm_compute; exact I] ].
Defined.
End EditDistinctExamples.

(** ** EditPDF: how many pages a deletion removes *)

Section EditDeleteCount.
Import Js EditPDF.

Lemma length_filter_index_from {A} (sel : JsSet) (l : list A) (k : Z) :
  length (filter_index_from (λ index, negb (JsSet.has index sel)) l k)
  = length (filter (λ i, i ∉ sel) (seqZ k (len l))).
Proof.
  revert k. induction l as [| a l IH]; intros k; [done |].
  unfold len. simpl length. rewrite seqZ_cons by lia.
  replace (Z.pred (Z.of_nat (S (length l)))) with (len l) by (unfold len; lia).
  simpl. rewrite filter_cons. unfold JsSet.has.
  replace (Z.succ k) with (k + 1) by lia.
  case_bool_decide; simpl.
  - rewrite decide_False by tauto. apply IH.
  - rewrite decide_True by done. simpl. by rewrite IH.
Qed.

Lemma length_selected_in_range (sel : JsSet) (n : Z) :
  NoDup sel → (∀ i, i ∈ sel → 0 ≤ i < n) →
  length (filter (λ i, i ∈ sel) (seqZ 0 n)) = length sel.
Proof.
  intros Hnd Hrange. apply Permutation_length, NoDup_Permutation.
  - apply NoDup_filter, NoDup_seqZ.
  - done.
  - intros i. rewrite list_elem_of_filter, elem_of_seqZ.
    split; [tauto |]. intros Hi. split; [done |]. apply Hrange in Hi. lia.
Qed.

Lemma emitted_take (n : nat) (st : State) (evs : list event) :
  emitted st evs → emitted st (take n evs).
Proof.
  revert st n. induction evs as [| e evs IH]; intros st [| n] Hevs; try done.
  destruct Hevs as [He Hevs]. split; [done | by apply IH].
Qed.

(** After any sequence of events the page emits, a deletion that is
    not refused removes as many pages as are selected, and at least
    one page remains. *)
Theorem deleteSelectedPages_removes_selected_count
    (evs : list event) (pdf : LoadedPDF) :
  emitted initial evs →
  loadedPDF (run initial evs) = Some pdf →
  0 < JsSet.size (selectedPages (run initial evs)) < len (pages pdf) →
  ∃ pdf',
    deleteSelectedPages (run initial evs)
    = ({| loadedPDF := Some pdf'; selectedPages := JsSet.empty |}, None) ∧
    len (pages pdf') =
      len (pages pdf) - JsSet.size (selectedPages (run initial evs)) ∧
    1 ≤ len (pages pdf').
Proof.
  intros Hevs Hpdf Hsize.
  pose proof (run_no_dangling initial evs (no_dangling_empty None) Hevs) as Hinv.
  destruct (run_distinct initial evs) as [Hnd _];
    [split; [apply NoDup_nil_2 | done] | done |].
  unfold no_dangling in Hinv. rewrite Hpdf in Hinv.
  set (st := run initial evs) in *.
  unfold deleteSelectedPages. rewrite Hpdf.
  rewrite !bool_decide_eq_false_2 by lia.
  eexists. split; [reflexivity |]. simpl.
  assert (len (filter_index (λ index, negb (JsSet.has index (selectedPages st)))
                 (pages pdf))
          = len (pages pdf) - JsSet.size (selectedPages st)) as ->; [| lia].
  unfold filter_index, JsSet.size. unfold len at 1.
  rewrite length_filter_index_from.
  rewrite <- (length_selected_in_range (selectedPages st) (len (pages pdf)))
    by done.
  pose proof (filter_app_complement (λ i, i ∈ selectedPages st)
                (seqZ 0 (len (pages pdf)))) as Hperm.
  apply Permutation_length in Hperm.
  rewrite length_app, length_seqZ in Hperm.
  unfold len in *. lia.
Qed.

(** Selecting all pages and asking to delete them is refused
    whenever there is a page: the page says so and changes nothing. *)
Theorem selectAll_then_delete_is_refused (st : State) (pdf : LoadedPDF) :
  loadedPDF st = Some pdf →
  pages pdf ≠ [] →
  deleteSelectedPages (selectAll st)
  = (selectAll st, Some "Cannot delete all pages").
Proof.
  intros Hpdf Hpages. rewrite (selectAll_loaded st pdf Hpdf).
  unfold deleteSelectedPages, JsSet.size. simpl.
  rewrite length_seqZ. unfold len.
  rewrite bool_decide_eq_false_2.
  - by rewrite bool_decide_eq_true_2 by lia.
  - destruct (pages pdf); [done | simpl; lia].
Qed.
End EditDeleteCount.

Section EditDeleteCountExamples.
Import Js EditPDF Examples.

Lemma deleteSelectedPages_removes_selected_count_witness :
  ∃ pdf',
    deleteSelectedPages (run initial (firstn 5 session))
    = ({| loadedPDF := Some pdf'; selectedPages := JsSet.empty |}, None) ∧
    len (pages pdf') =
      len (pages (loaded [page "page-0-17" 0; page "page-2-17" 2;
                          {| id := "page-1-17"; pageIndex := 1; rotation := 90 |}]))
      - JsSet.size (selectedPages (run initial (firstn 5 session))) ∧
    1 ≤ len (pages pdf').
Proof.
  apply (deleteSelectedPages_removes_selected_count (firstn 5 session)).
  - apply (emitted_take 5 initial session). exact session_emitted.
  - reflexivity.
  - vm_compute. split; reflexivity.
Defined.

Lemma selectAll_then_delete_is_refused_witness :
  deleteSelectedPages (selectAll (editing [A; B; C] [1]))
  = (selectAll (editing [A; B; C] [1]), Some "Cannot delete all pages").
Proof.
  apply (selectAll_then_delete_is_refused (editing [A; B; C] [1]) (loaded [A; B; C])).
  - reflexivity.
  - discriminate.
Defined.
End EditDeleteCountExamples.

(** ** EditPDF: the arrows undo each other, and agree with dragging *)

Section EditArrows.
Import Js EditPDF.

Lemma foldl_add_map (f : Z → Z) (l : list Z) (s : JsSet) :
  NoDup (s ++ map f l) →
  foldl (λ newSet i, JsSet.add (f i) newSet) s l = s ++ map f l.
Proof.
  revert s. induction l as [| a l IH]; intros s Hnd; simpl.
  - by rewrite app_nil_r.
  - simpl in Hnd.
    assert (JsSet.add (f a) s = s ++ [f a]) as ->.
    { unfold JsSet.add. rewrite (proj2 (has_false (f a) s)); [done |].
      apply NoDup_app in Hnd as (_ & Hdisj & _). intros Hin.
      apply (Hdisj _ Hin), list_elem_of_here. }
    rewrite IH; rewrite <- app_assoc; done.
Qed.

(** A remapping that sends distinct indices to distinct indices
    maps the members one by one, in order. *)
Lemma forEach_add_map (f : Z → Z) (s : JsSet) :
  NoDup (map f s) → JsSet.forEach_add f s = map f s.
Proof. intros Hnd. unfold JsSet.forEach_add. by rewrite foldl_add_map. Qed.

Lemma forEach_add_ext (f g : Z → Z) (s : JsSet) :
  (∀ i, f i = g i) → JsSet.forEach_add f s = JsSet.forEach_add g s.
Proof.
  intros Hfg. unfold JsSet.forEach_add. generalize JsSet.empty.
  induction s as [| a s IH]; intros acc; simpl; [done |].
  by rewrite Hfg, IH.
Qed.

Lemma swap_adjacent_twice {A} (l : list A) (a : nat) :
  (S a < length l)%nat → swap a (S a) (swap a (S a) l) = l.
Proof.
  intros Hlt.
  destruct (lookup_lt_is_Some_2 l a) as [x Hx]; [lia |].
  destruct (lookup_lt_is_Some_2 l (S a)) as [y Hy]; [lia |].
  assert (swap a (S a) l !! a = Some y) as Hx'.
  { rewrite (swap_lookup l _ _ _ x y Hx Hy).
    rewrite decide_False by lia. by rewrite decide_True. }
  assert (swap a (S a) l !! S a = Some x) as Hy'.
  { rewrite (swap_lookup l _ _ _ x y Hx Hy). by rewrite decide_True. }
  apply list_eq. intros k.
  rewrite (swap_lookup _ _ _ _ y x Hx' Hy').
  rewrite (swap_lookup l _ _ _ x y Hx Hy).
  repeat case_decide; subst; try lia; done.
Qed.

(** Remapping by [f] and then by [g], which takes every index back. *)
Lemma forEach_add_back (f g : Z → Z) (s : JsSet) :
  NoDup s → (∀ i, g (f i) = i) →
  JsSet.forEach_add g (JsSet.forEach_add f s) = s.
Proof.
  intros Hnd Hgf.
  assert (NoDup (map f s)) as Hf.
  { apply NoDup_fmap_2_strong; [| done].
    intros x y _ _ Hxy. by rewrite <- (Hgf x), <- (Hgf y), Hxy. }
  assert (map g (map f s) = s) as Hback.
  { rewrite <- list_fmap_compose. rewrite <- (list_fmap_id s) at 2.
    apply list_fmap_ext. intros _ x _. apply Hgf. }
  rewrite (forEach_add_map f s Hf).
  rewrite forEach_add_map; rewrite Hback; done.
Qed.

(** Moving a page up and then down again from where it arrived, or
    down and then up, gives back the pages and the selection. *)
Theorem movePage_up_down_round_trip (st : State) (pdf : LoadedPDF) (index : Z) :
  loadedPDF st = Some pdf →
  NoDup (selectedPages st) →
  1 ≤ index < len (pages pdf) →
  movePageDown (index - 1) (movePageUp index st) = st ∧
  movePageUp index (movePageDown (index - 1) st) = st.
Proof.
  intros Hpdf Hnd Hindex. destruct st as [o sel]. simpl in *. subst o.
  unfold len in Hindex.
  assert (Hnat : Z.to_nat index = S (Z.to_nat (index - 1))) by lia.
  assert (Hnat' : Z.to_nat (index - 1 + 1) = S (Z.to_nat (index - 1))) by lia.
  split.
  - unfold movePageUp. simpl. rewrite bool_decide_eq_false_2 by lia.
    unfold movePageDown. simpl.
    rewrite bool_decide_eq_false_2 by (unfold len; rewrite swap_length; lia).
    f_equal.
    + f_equal. destruct pdf as [pf pn psz pab ps]. unfold with_pages. simpl in *.
      f_equal. rewrite Hnat, Hnat'. apply swap_adjacent_twice. lia.
    + apply forEach_add_back; [done |]. intros i.
      repeat case_bool_decide; lia.
  - unfold movePageDown. simpl.
    rewrite bool_decide_eq_false_2 by (unfold len; lia).
    unfold movePageUp. simpl. rewrite bool_decide_eq_false_2 by lia.
    f_equal.
    + f_equal. destruct pdf as [pf pn psz pab ps]. unfold with_pages. simpl in *.
      f_equal. rewrite Hnat, Hnat'. apply swap_adjacent_twice. lia.
    + apply forEach_add_back; [done |]. intros i.
      repeat case_bool_decide; lia.
Qed.
End EditArrows.

Section EditArrowsExamples.
Import Js EditPDF Examples.

Lemma movePage_up_down_round_trip_witness :
  movePageDown (2 - 1) (movePageUp 2 (editing [A; B; C; D] [2; 0]))
  = editing [A; B; C; D] [2; 0] ∧
  movePageUp 2 (movePageDown (2 - 1) (editing [A; B; C; D] [2; 0]))
  = editing [A; B; C; D] [2; 0].
Proof.
  apply (movePage_up_down_round_trip
           (editing [A; B; C; D] [2; 0]) (loaded [A; B; C; D]) 2).
  - reflexivity.
  - apply (bool_decide_unpack _). vm_compute. exact I.
  - unfold len. simpl. lia.
Defined.
End EditArrowsExamples.

Section EditDragIsArrow.
Import Js EditPDF.

(** Exchanging two neighbours is also moving the first one behind
    the second. *)
Lemma swap_adjacent_reinsert_after {A} (l : list A) (a : nat) x :
  l !! a = Some x → (S a < length l)%nat →
  swap a (S a) l = take (S a) (delete a l) ++ x :: drop (S a) (delete a l).
Proof.
  intros Hx Hlt.
  destruct (lookup_lt_is_Some_2 l (S a)) as [y Hy]; [lia |].
  apply list_eq. intros k.
  rewrite (swap_lookup l _ _ _ x y Hx Hy).
  rewrite (lookup_reinsert l _ _ _ x Hx) by lia.
  repeat case_decide; try lia; try done.
  subst k. by rewrite Hy.
Qed.

(** Dragging a page onto its left neighbour is the arrow to the left,
    and dragging the left neighbour onto the page is its arrow to the
    right: pages and selection come out the same. *)
Theorem drag_onto_neighbour_is_arrow
    (st : State) (pdf : LoadedPDF) (index : Z) (p q : PageInfo) :
  loadedPDF st = Some pdf →
  NoDup (map id (pages pdf)) →
  get (pages pdf) index = Some p →
  get (pages pdf) (index - 1) = Some q →
  handleDragEnd (id p) (Some (id q)) st = movePageUp index st ∧
  handleDragEnd (id q) (Some (id p)) st = movePageDown (index - 1) st.
Proof.
  intros Hpdf Hnd Hp Hq.
  pose proof (findIndex_NoDup id (pages pdf) index p Hnd Hp) as Hip.
  pose proof (findIndex_NoDup id (pages pdf) (index - 1) q Hnd Hq) as Hiq.
  assert (Hne : id p ≠ id q).
  { intros Heq. rewrite Heq in Hip. rewrite Hip in Hiq. lia. }
  assert (Hrange : 1 ≤ index < len (pages pdf)).
  { apply mk_is_Some, get_is_Some in Hp. apply mk_is_Some, get_is_Some in Hq. lia. }
  unfold len in Hrange.
  assert (Hnat : Z.to_nat index = S (Z.to_nat (index - 1))) by lia.
  assert (Hnat' : Z.to_nat (index - 1 + 1) = S (Z.to_nat (index - 1))) by lia.
  assert (Hp' : pages pdf !! S (Z.to_nat (index - 1)) = Some p).
  { unfold get in Hp. rewrite bool_decide_eq_true_2 in Hp by lia. by rewrite <- Hnat. }
  assert (Hq' : pages pdf !! Z.to_nat (index - 1) = Some q).
  { unfold get in Hq. by rewrite bool_decide_eq_true_2 in Hq by lia. }
  split.
  - unfold handleDragEnd, movePageUp.
    rewrite bool_decide_eq_true_2 by done. rewrite Hpdf, Hip, Hiq.
    rewrite bool_decide_eq_false_2 by lia. f_equal.
    + do 2 f_equal. rewrite (arrayMove_in_range_Z _ _ _ p Hp) by (unfold len; lia).
      rewrite Hnat. symmetry. by apply swap_adjacent_reinsert.
    + apply forEach_add_ext. intros i. unfold dragRemap.
      repeat (case_bool_decide; simpl); lia.
  - unfold handleDragEnd, movePageDown.
    rewrite bool_decide_eq_true_2 by done. rewrite Hpdf, Hip, Hiq.
    rewrite bool_decide_eq_false_2 by (unfold len; lia). f_equal.
    + do 2 f_equal. rewrite (arrayMove_in_range_Z _ _ _ q Hq) by (unfold len; lia).
      rewrite Hnat', Hnat. symmetry. apply swap_adjacent_reinsert_after; [done | lia].
    + apply forEach_add_ext. intros i. unfold dragRemap.
      repeat (case_bool_decide; simpl); lia.
Qed.
End EditDragIsArrow.

Section EditDragIsArrowExamples.
Import Js EditPDF Examples.

Lemma drag_onto_neighbour_is_arrow_witness :
  handleDragEnd (id C) (Some (id B)) (editing [A; B; C; D] [2; 0])
  = movePageUp 2 (editing [A; B; C; D] [2; 0]) ∧
  handleDragEnd (id B) (Some (id C)) (editing [A; B; C; D] [2; 0])
  = movePageDown (2 - 1) (editing [A; B; C; D] [2; 0]).
Proof.
  apply (drag_onto_neighbour_is_arrow
           (editing [A; B; C; D] [2; 0]) (loaded [A; B; C; D]) 2 C B).
  - reflexivity.
  - apply (bool_decide_unpack _). vm_compute. exact I.
  - reflexivity.
  - reflexivity.
Defined.
End EditDragIsArrowExamples.

(** ** EditPDF: saving *)

Section EditSave.
Import Js EditPDF.
Context {Content : Type} (blank : Content).
Implicit Types (sourcePdf : list (Content * Z)) (st : State).

(** Loading a file and saving it at once writes the document that
    was read: the same pages in the same order with the same
    rotations.  For a document without pages, what is written has the
    one blank page the library's [save] adds. *)
Theorem load_then_save_round_trip sourcePdf (f : File) (files : list File)
    (now : nat → Z) st :
  handleSave blank sourcePdf
    (handleFilesAdded (f :: files) (Some (map snd sourcePdf)) now st)
  = Some (match sourcePdf with
          | [] => [(blank, 0)]
          | _ => sourcePdf
          end).
Proof.
  unfold handleSave, handleFilesAdded. simpl.
  match goal with
  | |- mbind _ ?copied = _ => assert (copied = Some sourcePdf) as ->
  end; [| done].
  apply mapM_Some_2, Forall2_same_length_lookup_2.
  - by rewrite length_imap, length_fmap.
  - intros i pageInfo page. rewrite list_lookup_imap, list_lookup_fmap.
    intros Hinfo Hpage. rewrite Hpage in Hinfo. simpl in Hinfo.
    injection Hinfo as <-. simpl. rewrite get_nat, Hpage. simpl.
    by rewrite bool_decide_eq_false_2 by (intros Hne; by apply Hne).
Qed.

(** Saving goes through when there is a page, every page entry points
    into the source document and is turned by a multiple of 90
    degrees; it writes for each entry the page it points to with the
    entry's rotation, and nothing else. *)
Lemma handleSave_savable sourcePdf st :
  savable (len sourcePdf) st →
  ∃ pdf out,
    loadedPDF st = Some pdf ∧
    handleSave blank sourcePdf st = Some out ∧
    Forall2 (λ pageInfo saved,
               ∃ current, get sourcePdf (pageIndex pageInfo) = Some (saved.1, current)
                          ∧ saved.2 = rotation pageInfo)
            (pages pdf) out.
Proof.
  intros (pdf & Hpdf & Hne & Hrange). exists pdf.
  assert (∃ out,
            mapM (λ pageInfo,
                    copiedPage ← get sourcePdf (pageIndex pageInfo);
                    if bool_decide (copiedPage.2 ≠ rotation pageInfo)
                    then (if bool_decide (Z.rem (rotation pageInfo) 90 = 0)
                          then Some (copiedPage.1, rotation pageInfo) else None)
                    else Some copiedPage) (pages pdf) = Some out ∧
            Forall2 (λ pageInfo saved,
                       ∃ current,
                         get sourcePdf (pageIndex pageInfo) = Some (saved.1, current)
                         ∧ saved.2 = rotation pageInfo)
                    (pages pdf) out) as (out & Hout & Hall).
  { clear Hne. induction Hrange as [| p ps [Hp Hturn] _ IH].
    - exists []. split; [done | constructor].
    - destruct IH as (out & Hout & Hall).
      destruct (proj2 (get_is_Some sourcePdf (pageIndex p))) as [[c r] Hc]; [done |].
      case_eq (bool_decide (r ≠ rotation p)); intros Hr.
      + exists ((c, rotation p) :: out). split.
        * cbn [mapM]. rewrite Hc. simpl. rewrite Hr.
          rewrite bool_decide_eq_true_2 by done. simpl. by rewrite Hout.
        * constructor; [| done]. by exists r.
      + exists ((c, r) :: out). split.
        * cbn [mapM]. rewrite Hc. simpl. rewrite Hr. simpl. by rewrite Hout.
        * constructor; [| done]. exists r. split; [done |]. simpl.
          apply bool_decide_eq_false in Hr.
          destruct (decide (r = rotation p)); [done | by destruct Hr]. }
  exists out. split_and!; [done | | done].
  unfold handleSave. rewrite Hpdf. cbv zeta. rewrite Hout. simpl.
  destruct out as [| saved out]; [| done].
  apply Forall2_nil_inv_r in Hall. done.
Qed.

Lemma quarter_turn_kept (r d : Z) :
  d = -90 ∨ d = 90 → Z.rem r 90 = 0 → Z.rem (Z.rem (r + d + 360) 360) 90 = 0.
Proof.
  intros Hd Hr.
  pose proof (Z.quot_rem' r 90) as Hq. rewrite Hr in Hq.
  pose proof (Z.quot_rem' (r + d + 360) 360) as Hq'.
  replace (Z.rem (r + d + 360) 360)
    with ((r `quot` 90 + d `quot` 90 + 4 - 4 * ((r + d + 360) `quot` 360)) * 90).
  - by apply Z.rem_mul.
  - destruct Hd as [-> | ->].
    + change ((-90) `quot` 90) with (-1). lia.
    + change (90 `quot` 90) with 1. lia.
Qed.

(** A deletion that is not refused leaves as many pages as were not
    selected. *)
Lemma len_deleteSelected {A} (sel : JsSet) (l : list A) :
  NoDup sel → (∀ i, i ∈ sel → 0 ≤ i < len l) →
  len (filter_index (λ index, negb (JsSet.has index sel)) l)
  = len l - JsSet.size sel.
Proof.
  intros Hnd Hrange. unfold filter_index, JsSet.size. unfold len at 1.
  rewrite length_filter_index_from.
  rewrite <- (length_selected_in_range sel (len l)) by done.
  pose proof (filter_app_complement (λ i, i ∈ sel) (seqZ 0 (len l))) as Hperm.
  apply Permutation_length in Hperm.
  rewrite length_app, length_seqZ in Hperm.
  unfold len in *. lia.
Qed.

(** What makes a state fit for saving is kept by every handler that
    keeps the file: entries are moved, turned by quarter turns and
    taken out, never made, and the last page is never taken out. *)
Lemma handle_savable (n : Z) st (e : event) :
  no_dangling st → NoDup (selectedPages st) → savable n st →
  emits st e → keeps_file e →
  savable n (handle st e).
Proof.
  intros Hinv Hsel (pdf & Hpdf & Hne & Hall) He Hkeep.
  unfold no_dangling in Hinv. rewrite Hpdf in Hinv. unfold savable.
  destruct e as [files doc now | active over | i | | | d | | index | index |];
    simpl in *; try done.
  - unfold handleDragEnd. destruct He as [(pdf1 & Hpdf1 & Hactive) Hover].
    assert (pdf1 = pdf) as -> by congruence.
    destruct over as [over_id |]; [| by exists pdf].
    case_bool_decide; [| by exists pdf]. rewrite Hpdf.
    destruct (Hover over_id eq_refl) as (pdf2 & Hpdf2 & Hover_id).
    assert (pdf2 = pdf) as -> by congruence.
    destruct (findIndex_id _ _ Hactive) as [Ho _].
    destruct (findIndex_id _ _ Hover_id) as [Hn _].
    eexists. split; [reflexivity |]. simpl.
    split; [| by rewrite arrayMove_Permutation].
    intros Hnil. apply (f_equal length) in Hnil.
    rewrite (Permutation_length (arrayMove_Permutation _ _ _ Ho Hn)) in Hnil.
    by destruct (pages pdf).
  - by exists pdf.
  - exists pdf. split; [| done]. unfold selectAll. by rewrite Hpdf.
  - by exists pdf.
  - destruct (rotatePages_lookup d st pdf Hpdf) as (pdf' & Hpdf' & _ & Hlook).
    exists pdf'. split; [done |]. split.
    + intros Hnil. destruct (pages pdf) as [| p ps] eqn:Hps; [done |].
      specialize (Hlook 0%nat). rewrite Hnil in Hlook. done.
    + apply Forall_lookup. intros k p Hk. rewrite Hlook in Hk.
      destruct (pages pdf !! k) as [q |] eqn:Hq; [| done]. simpl in Hk.
      rewrite Forall_lookup in Hall. destruct (Hall k q Hq) as [Hrange Hturn].
      destruct (JsSet.has (Z.of_nat k) (selectedPages st));
        injection Hk as <-; [| done]. simpl.
      split; [done |]. apply quarter_turn_kept; [| done]. destruct d; auto.
  - unfold deleteSelectedPages. rewrite Hpdf.
    repeat case_bool_decide; simpl; try by exists pdf.
    eexists. split; [reflexivity |]. simpl. split.
    + intros Hnil. apply (f_equal len) in Hnil.
      rewrite len_deleteSelected in Hnil by done. unfold len in Hnil at 2.
      simpl in Hnil. lia.
    + rewrite Forall_forall in Hall. apply Forall_forall. intros p Hp.
      apply Hall. eapply elem_of_sublist; [exact Hp |].
      apply filter_index_from_sublist.
  - destruct He as (pdf1 & Hpdf1 & Hindex).
    assert (pdf1 = pdf) as -> by congruence.
    unfold movePageUp. rewrite Hpdf. case_bool_decide; [by exists pdf |].
    eexists. split; [reflexivity |]. simpl. unfold len in Hindex.
    replace (Z.to_nat index) with (S (Z.to_nat (index - 1))) by lia.
    split; [| by rewrite swap_adjacent_Permutation by lia].
    intros Hnil. apply (f_equal length) in Hnil.
    rewrite swap_length in Hnil. by destruct (pages pdf).
  - destruct He as (pdf1 & Hpdf1 & Hindex).
    assert (pdf1 = pdf) as -> by congruence.
    unfold movePageDown. rewrite Hpdf. case_bool_decide; [by exists pdf |].
    eexists. split; [reflexivity |]. simpl. unfold len in *.
    replace (Z.to_nat (index + 1)) with (S (Z.to_nat index)) by lia.
    split; [| by rewrite swap_adjacent_Permutation by lia].
    intros Hnil. apply (f_equal length) in Hnil.
    rewrite swap_length in Hnil. by destruct (pages pdf).
Qed.

Lemma run_savable (n : Z) st (evs : list event) :
  no_dangling st → distinct st → savable n st →
  emitted st evs → Forall keeps_file evs →
  savable n (run st evs).
Proof.
  revert st. induction evs as [| e evs IH]; intros st Hinv Hst Hsave Hevs Hkeep;
    [done |].
  destruct Hevs as [He Hevs]. apply Forall_cons in Hkeep as [Hk Hkeep].
  simpl. apply IH; [by apply handle_no_dangling | by apply handle_distinct | | done..].
  apply handle_savable; [done | by destruct Hst | done..].
Qed.

(** Saving after an editing session on one file goes through, whatever
    the user did to the pages, when the source has a page and its
    pages are turned by multiples of 90 degrees: every page written is
    the page of the source its entry points to, with the entry's
    rotation, and no page of the source is written twice.  The page
    never gets to a file without pages, to an index outside the
    source or to an angle the library refuses. *)
Theorem handleSave_after_session sourcePdf (f : File) (files : list File)
    (now : nat → Z) (evs : list event) :
  let st0 :=
    handleFilesAdded (f :: files) (Some (map snd sourcePdf)) now initial in
  sourcePdf ≠ [] →
  Forall (λ page, Z.rem page.2 90 = 0) sourcePdf →
  emitted st0 evs →
  Forall keeps_file evs →
  ∃ pdf out,
    loadedPDF (run st0 evs) = Some pdf ∧
    handleSave blank sourcePdf (run st0 evs) = Some out ∧
    NoDup (map pageIndex (pages pdf)) ∧
    Forall2 (λ pageInfo saved,
               ∃ current,
                 get sourcePdf (pageIndex pageInfo) = Some (saved.1, current)
                 ∧ saved.2 = rotation pageInfo)
            (pages pdf) out.
Proof.
  intros st0 Hne Hturns Hevs Hkeep.
  assert (distinct st0) as Hst0.
  { apply handleFilesAdded_distinct. split; [apply NoDup_nil_2 | done]. }
  assert (no_dangling st0) as Hinv0 by apply no_dangling_empty.
  assert (savable (len sourcePdf) st0) as Hsave0.
  { eexists. split; [reflexivity |]. simpl. split.
    - by destruct sourcePdf.
    - apply Forall_lookup. intros k p Hk.
      rewrite list_lookup_imap, list_lookup_fmap in Hk.
      destruct (sourcePdf !! k) as [page |] eqn:Hpage; [| done].
      simpl in Hk. injection Hk as <-. simpl.
      rewrite Forall_lookup in Hturns. split; [| by apply (Hturns k)].
      apply lookup_lt_Some in Hpage. unfold len. lia. }
  pose proof (run_distinct st0 evs Hst0 Hevs) as [_ Hdistinct].
  pose proof (run_savable _ st0 evs Hinv0 Hst0 Hsave0 Hevs Hkeep) as Hsave.
  destruct (handleSave_savable sourcePdf _ Hsave) as (pdf & out & Hpdf & Hout & Hall).
  rewrite Hpdf in Hdistinct. destruct Hdistinct as [_ Hidx].
  by exists pdf, out.
Qed.
End EditSave.

Section EditSaveExamples.
Import Js EditPDF Examples.

Example load_then_save_examples :
  handleSave "blank" [("a", 0); ("b", 90)]
    (handleFilesAdded [sample_file] (Some [0; 90]) (λ i, 1700 + Z.of_nat i) initial)
  = Some [("a", 0); ("b", 90)]
  ∧ handleSave "blank" []
      (handleFilesAdded [sample_file] (Some []) (λ i, 1700 + Z.of_nat i) initial)
    = Some [("blank", 0)].
Proof. split; reflexivity. Qed.

Lemma handleSave_after_session_witness :
  let source := [("a", 0); ("b", 90); ("c", 0)] in
  let evs := [TogglePage 0; RotatePages right; MovePageDown 0;
              DeselectAll; TogglePage 2; DeleteSelectedPages] in
  let st := run (handleFilesAdded [sample_file] (Some (map snd source))
                   (λ i, 1700 + Z.of_nat i) initial)
                evs in
  ∃ pdf out,
    loadedPDF st = Some pdf ∧
    handleSave "blank" source st = Some out ∧
    NoDup (map pageIndex (pages pdf)) ∧
    Forall2 (λ pageInfo saved,
               ∃ current,
                 get source (pageIndex pageInfo) = Some (saved.1, current)
                 ∧ saved.2 = rotation pageInfo)
            (pages pdf) out.
Proof.
  intros source evs st.
  apply (handleSave_after_session "blank" source sample_file []
           (λ i, 1700 + Z.of_nat i) evs).
  - discriminate.
  - repeat constructor.
  - simpl. unfold rendered_index. simpl. unfold len. simpl.
    repeat split; try (eexists; split; [reflexivity | simpl; lia]).
  - repeat constructor.
Defined.
End EditSaveExamples.

(** ** MergePDF: the list of files *)

Section MergeFacts.
Import Js MergePDF.
Implicit Types (files : list PDFFile) (p q : PDFFile).

Lemma ids_differ files (i j : Z) p q :
  NoDup (map id files) → get files i = Some p → get files j = Some q →
  i ≠ j → id p ≠ id q.
Proof.
  intros Hids Hp Hq Hij Heq.
  pose proof (findIndex_NoDup id files i p Hids Hp) as Hi.
  pose proof (findIndex_NoDup id files j q Hids Hq) as Hj.
  rewrite Heq in Hi. congruence.
Qed.

(** Dragging a file onto another one is the move the arrow buttons
    make, taken over any distance: the drag handler finds the two
    positions by id and then does what [moveFile] does with them. *)
Theorem handleDragEnd_is_moveFile files (i j : Z) p q :
  NoDup (map id files) →
  get files i = Some p → get files j = Some q → i ≠ j →
  handleDragEnd (id p) (Some (id q)) files = moveFile i j files.
Proof.
  intros Hids Hp Hq Hij.
  pose proof (proj1 (get_is_Some files i) (mk_is_Some _ _ Hp)) as Hi.
  pose proof (proj1 (get_is_Some files j) (mk_is_Some _ _ Hq)) as Hj.
  unfold handleDragEnd, moveFile.
  rewrite bool_decide_eq_true_2 by by eapply ids_differ.
  rewrite (findIndex_NoDup id files i p Hids Hp).
  rewrite (findIndex_NoDup id files j q Hids Hq).
  rewrite arrayMove_splice_move by done.
  rewrite !bool_decide_eq_false_2 by lia. done.
Qed.

Lemma get_splice_move_target {A} (l : list A) (o n : Z) (x : A) :
  get l o = Some x → 0 ≤ n < len l → get (splice_move o n l) n = Some x.
Proof.
  intros Hx Hn.
  pose proof (proj1 (get_is_Some l o) (mk_is_Some _ _ Hx)) as Ho.
  unfold len in *.
  rewrite <- (Z2Nat.id o) in Hx |- * by lia. rewrite get_nat in Hx.
  rewrite <- (Z2Nat.id n) by lia.
  rewrite (splice_move_in_range l _ _ x Hx) by lia.
  rewrite get_nat, (lookup_reinsert l _ _ _ x Hx) by lia.
  by rewrite decide_True.
Qed.

(** A drag keeps the files and puts the dragged one where the file
    it was dropped on stood. *)
Theorem handleDragEnd_lands_on_target files (i j : Z) p q :
  NoDup (map id files) →
  get files i = Some p → get files j = Some q → i ≠ j →
  handleDragEnd (id p) (Some (id q)) files ≡ₚ files ∧
  get (handleDragEnd (id p) (Some (id q)) files) j = Some p.
Proof.
  intros Hids Hp Hq Hij.
  pose proof (proj1 (get_is_Some files i) (mk_is_Some _ _ Hp)) as Hi.
  pose proof (proj1 (get_is_Some files j) (mk_is_Some _ _ Hq)) as Hj.
  unfold handleDragEnd.
  rewrite bool_decide_eq_true_2 by by eapply ids_differ.
  rewrite (findIndex_NoDup id files i p Hids Hp).
  rewrite (findIndex_NoDup id files j q Hids Hq).
  rewrite arrayMove_splice_move by done.
  split; [by apply splice_move_Permutation | by apply get_splice_move_target].
Qed.

Lemma len_splice_move {A} (l : list A) (o n : Z) :
  0 ≤ o < len l → 0 ≤ n < len l → len (splice_move o n l) = len l.
Proof.
  intros Ho Hn. unfold len. f_equal.
  apply Permutation_length. by apply splice_move_Permutation.
Qed.

(** Moving a file and then moving it back restores the list. *)
Theorem moveFile_round_trip files (fromIndex toIndex : Z) :
  0 ≤ fromIndex < len files → 0 ≤ toIndex < len files →
  moveFile toIndex fromIndex (moveFile fromIndex toIndex files) = files.
Proof.
  intros Hfrom Hto. unfold moveFile.
  rewrite !(bool_decide_eq_false_2 (toIndex < 0)) by lia.
  rewrite !(bool_decide_eq_false_2 (toIndex >= len files)) by lia. simpl.
  rewrite len_splice_move by lia.
  rewrite !bool_decide_eq_false_2 by lia. simpl.
  by apply splice_move_round_trip.
Qed.
Lemma ids_handleFilesAdded newFiles files :
  map id (handleFilesAdded newFiles files) = map id files ++ uuids newFiles.
Proof.
  unfold handleFilesAdded, uuids. rewrite map_app. f_equal.
  induction newFiles as [| [[f loaded] uuid] newFiles IH]; [done |].
  simpl. destruct loaded; simpl; [f_equal |]; exact IH.
Qed.

Lemma handle_unique_ids files (e : event) :
  NoDup (map id files) → emits files e → NoDup (map id (handle files e)).
Proof.
  intros Hids He.
  destruct e as [newFiles | active over | i | fromIndex toIndex |]; simpl in *.
  - rewrite ids_handleFilesAdded. destruct He as [Hnew Hfresh].
    apply NoDup_app. split_and!; [done | | done].
    intros u Hu Hu'. by apply (Hfresh u).
  - unfold handleDragEnd. destruct He as [Hactive Hover].
    destruct over as [over_id |]; [| done]. case_bool_decide; [| done].
    apply list_elem_of_fmap in Hactive as (p & -> & Hp).
    pose proof (Hover over_id eq_refl) as Hov.
    apply list_elem_of_fmap in Hov as (q & -> & Hq).
    destruct (findIndex_found (λ item, bool_decide (id item = id p)) files p Hp)
      as [Ho _]; [by apply bool_decide_eq_true_2 |].
    destruct (findIndex_found (λ item, bool_decide (id item = id q)) files q Hq)
      as [Hn _]; [by apply bool_decide_eq_true_2 |].
    by rewrite arrayMove_Permutation.
  - unfold removeFile. eapply sublist_NoDup; [exact Hids |].
    apply fmap_sublist, sublist_filter.
  - unfold moveFile. destruct He as [Hfrom _].
    destruct (bool_decide (toIndex < 0) || bool_decide (toIndex >= len files))
      eqn:Hguard; [done |].
    apply orb_false_iff in Hguard as [Hlo%bool_decide_eq_false
                                     Hhi%bool_decide_eq_false].
    rewrite splice_move_Permutation by lia. done.
  - apply NoDup_nil_2.
Qed.

(** However files are added, dragged, moved with the arrows and
    removed, no two files of the list have the same id, as long as the
    random identifiers given to new files are new. *)
Theorem file_ids_stay_unique (evs : list event) :
  emitted [] evs → NoDup (map id (run [] evs)).
Proof.
  assert (∀ files, NoDup (map id files) → emitted files evs →
                   NoDup (map id (run files evs))) as Hrun.
  { induction evs as [| e evs IH]; intros files Hids Hevs; simpl; [done |].
    destruct Hevs as [He Hevs]. apply IH; [by apply handle_unique_ids | done]. }
  apply Hrun. apply NoDup_nil_2.
Qed.
End MergeFacts.

Section MergeExamples.
Import Js MergePDF Examples.

Lemma handleDragEnd_is_moveFile_witness :
  handleDragEnd "a" (Some "c") [pdf "a"; pdf "b"; pdf "c"]
  = moveFile 0 2 [pdf "a"; pdf "b"; pdf "c"].
Proof.
  apply (handleDragEnd_is_moveFile [pdf "a"; pdf "b"; pdf "c"] 0 2
           (pdf "a") (pdf "c")).
  - apply (bool_decide_unpack _). vm_compute. exact I.
  - reflexivity.
  - reflexivity.
  - lia.
Defined.

Lemma handleDragEnd_lands_on_target_witness :
  handleDragEnd "c" (Some "a") [pdf "a"; pdf "b"; pdf "c"]
    ≡ₚ [pdf "a"; pdf "b"; pdf "c"] ∧
  get (handleDragEnd "c" (Some "a") [pdf "a"; pdf "b"; pdf "c"]) 0
  = Some (pdf "c").
Proof.
  apply (handleDragEnd_lands_on_target [pdf "a"; pdf "b"; pdf "c"] 2 0
           (pdf "c") (pdf "a")).
  - apply (bool_decide_unpack _). vm_compute. exact I.
  - reflexivity.
  - reflexivity.
  - lia.
Defined.

Lemma moveFile_round_trip_witness :
  moveFile 2 1 (moveFile 1 2 [pdf "a"; pdf "b"; pdf "c"])
  = [pdf "a"; pdf "b"; pdf "c"].
Proof.
  apply (moveFile_round_trip [pdf "a"; pdf "b"; pdf "c"] 1 2);
    unfold len; simpl; lia.
Defined.

Lemma file_ids_stay_unique_witness :
  NoDup (map id
    (run [] [ FilesAdded [(sample_file, Some 3, "u1"); (sample_file, None, "u2");
                          (sample_file, Some 1, "u3")];
              MoveFile 0 1;
              DragEnd "u1" (Some "u3");
              FilesAdded [(sample_file, Some 2, "u4")];
              RemoveFile "u3" ])).
Proof.
  apply file_ids_stay_unique. simpl. unfold len. simpl.
  split_and!; try lia; try done;
    try (apply (bool_decide_unpack _); vm_compute; exact I).
  - intros u Hu. apply (bool_decide_unpack _). vm_compute. exact I.
  - intros o [= <-]. apply (bool_decide_unpack _). vm_compute. exact I.
  - intros u ->%list_elem_of_singleton.
    apply (bool_decide_unpack _). vm_compute. exact I.
Defined.
End MergeExamples.

(** ** ImagesToPDF: the arrows of the rendered images *)

Section ImageArrows.
Import Js ImagesToPDF.

(** For an image with a right neighbour, its right arrow and the
    neighbour's left arrow give the same list: the two images
    exchanged, every other image where it was. *)
Theorem moveImage_arrows_exchange (images : list ImageFile) (index : Z) :
  0 ≤ index → index + 1 < len images →
  moveImage index (index + 1) images
  = swap (Z.to_nat index) (Z.to_nat (index + 1)) images ∧
  moveImage (index + 1) index images
  = swap (Z.to_nat index) (Z.to_nat (index + 1)) images.
Proof.
  intros Hlo Hhi. unfold moveImage, len in *.
  assert (index = Z.of_nat (Z.to_nat index)) as Hindex by lia.
  revert Hindex Hhi. generalize (Z.to_nat index) as a. intros a -> Hhi.
  replace (Z.of_nat a + 1) with (Z.of_nat (S a)) by lia. rewrite Nat2Z.id.
  destruct (lookup_lt_is_Some_2 images a) as [x Hx]; [lia |].
  destruct (lookup_lt_is_Some_2 images (S a)) as [y Hy]; [lia |].
  rewrite (splice_move_in_range images a (S a) x Hx) by lia.
  rewrite (splice_move_in_range images (S a) a y Hy) by lia.
  split.
  - symmetry. apply swap_adjacent_reinsert_after; [done | lia].
  - symmetry. by apply swap_adjacent_reinsert.
Qed.
End ImageArrows.

Section ImageArrowsExamples.
Import Js ImagesToPDF Examples.

Lemma moveImage_arrows_exchange_witness :
  moveImage 1 (1 + 1) [image "a"; image "b"; image "c"]
  = swap (Z.to_nat 1) (Z.to_nat (1 + 1)) [image "a"; image "b"; image "c"] ∧
  moveImage (1 + 1) 1 [image "a"; image "b"; image "c"]
  = swap (Z.to_nat 1) (Z.to_nat (1 + 1)) [image "a"; image "b"; image "c"].
Proof.
  apply (moveImage_arrows_exchange [image "a"; image "b"; image "c"] 1).
  - lia.
  - unfold len. simpl. lia.
Defined.
End ImageArrowsExamples.

(** ** SplitPDF: what is saved *)

Section SplitOutput.
Import Js SplitPDF.
Context {Page : Type}.
Implicit Types (sourcePdf l : list Page) (indices : list Z).

#[local] Existing Instance ordered_sub_total.
#[local] Existing Instance ordered_sub_trans.
#[local] Existing Instance ordered_sub_antisym.

Lemma get_cons_pos (a : Page) l (i : Z) : 0 < i → get (a :: l) i = get l (i - 1).
Proof.
  intros Hi. unfold get. rewrite !bool_decide_eq_true_2 by lia.
  replace (Z.to_nat i) with (S (Z.to_nat (i - 1))) by lia. done.
Qed.

Lemma copyPages_cons_pos (a : Page) l indices :
  Forall (λ i, 0 < i) indices →
  copyPages (a :: l) indices = copyPages l (map (λ i, i - 1) indices).
Proof.
  unfold copyPages. induction 1 as [| i indices Hi _ IH]; [done |].
  cbn [mapM map]. by rewrite get_cons_pos, IH.
Qed.

(** Copying at increasing indices inside the document gives a
    subsequence of it, one page for each index. *)
Lemma copyPages_increasing l indices :
  Sorted Z.lt indices → (∀ i, i ∈ indices → 0 ≤ i < len l) →
  ∃ out,
    copyPages l indices = Some out ∧ out `sublist_of` l ∧
    length out = length indices.
Proof.
  revert indices. induction l as [| a l IH]; intros indices Hsorted Hrange.
  - destruct indices as [| i indices]; [by exists [] |].
    specialize (Hrange i (list_elem_of_here _ _)). unfold len in Hrange.
    simpl in Hrange. lia.
  - destruct indices as [| i rest]; [exists []; split_and!; [done | | done] |].
    { apply sublist_nil_l. }
    apply (Sorted_StronglySorted Z.lt) in Hsorted.
    apply StronglySorted_inv in Hsorted as [Hrest Hgt].
    assert (0 ≤ i) as Hi by (apply Hrange, list_elem_of_here).
    assert (Forall (λ j, 0 < j) rest) as Hpos.
    { eapply Forall_impl; [exact Hgt |]. simpl. lia. }
    assert (∀ js, StronglySorted Z.lt js → Forall (λ j, 0 < j) js →
                  (∀ j, j ∈ js → 0 ≤ j < len (a :: l)) →
                  ∃ out, copyPages (a :: l) js = Some out ∧
                         out `sublist_of` l ∧ length out = length js) as Hshift.
    { intros js Hjs Hjpos Hjrange. rewrite copyPages_cons_pos by done.
      destruct (IH (map (λ j, j - 1) js)) as (out & Hout & Hsub & Hlen).
      - apply (Sorted_fmap (λ j, j - 1) Z.lt Z.lt); [intros x y; lia |].
        by apply StronglySorted_Sorted.
      - intros j (j' & -> & Hj')%list_elem_of_fmap.
        rewrite Forall_forall in Hjpos. specialize (Hjpos j' Hj').
        specialize (Hjrange j' Hj'). unfold len in *. simpl in Hjrange. lia.
      - exists out. rewrite length_map in Hlen. done. }
    destruct (decide (i = 0)) as [-> | Hne].
    + destruct (Hshift rest Hrest Hpos) as (out & Hout & Hsub & Hlen).
      { intros j Hj. by apply Hrange, list_elem_of_further. }
      exists (a :: out). split_and!.
      * unfold copyPages in *. cbn [mapM]. rewrite Hout. done.
      * by apply sublist_skip.
      * simpl. by rewrite Hlen.
    + destruct (Hshift (i :: rest)) as (out & Hout & Hsub & Hlen).
      * by constructor.
      * constructor; [lia | done].
      * done.
      * exists out. split_and!; [done | by apply sublist_cons | done].
Qed.

(** Whatever pages are selected, the document that is saved is a
    subsequence of the source: pages are never repeated or put in
    another order, and there is one for each selected page number. *)
Theorem handleSplit_is_subsequence sourcePdf (pdf : LoadedPDF) (h : list action) :
  Forall (offered pdf) h →
  len sourcePdf = pages pdf →
  selectedPages (after pdf h) ≠ [] →
  ∃ out,
    handleSplit sourcePdf (after pdf h) = Some out ∧
    out `sublist_of` sourcePdf ∧
    len out = JsSet.size (selectedPages (after pdf h)).
Proof.
  intros Hh Hlen Hne. unfold after in *.
  set (s0 := {| loadedPDF := Some pdf; selectedPages := JsSet.empty |}) in *.
  destruct (history_invariant pdf h s0 eq_refl (NoDup_nil_2 (A:=Z))) as [Hpdf Hnd].
  assert (Hrange : ∀ p, p ∈ selectedPages (foldl act s0 h) → 1 ≤ p ≤ pages pdf).
  { apply history_in_range; [done | done |].
    intros p Hp. by apply elem_of_nil in Hp. }
  destruct (copyPages_increasing sourcePdf
              (pageIndices (selectedPages (foldl act s0 h))))
    as (out & Hout & Hsub & Hlength).
  { by apply pageIndices_Sorted. }
  { intros i Hi%elem_of_pageIndices. apply Hrange in Hi. lia. }
  exists out. split_and!; [| done |].
  - unfold handleSplit. rewrite Hpdf. rewrite bool_decide_eq_false_2.
    + rewrite Hout. simpl. by rewrite foldl_addPage.
    + unfold JsSet.size. destruct (selectedPages (foldl act s0 h)); [done | simpl; lia].
  - unfold len, JsSet.size. rewrite Hlength. unfold pageIndices.
    rewrite length_map. f_equal. apply Permutation_length, sort_Permutation.
Qed.

Lemma Sorted_seqZ (m n : Z) : Sorted (ordered (λ a b, a - b)) (seqZ m n).
Proof.
  destruct (decide (n ≤ 0)) as [Hn | Hn]; [rewrite seqZ_nil by done; constructor |].
  rewrite <- (Z2Nat.id n) by lia. generalize (Z.to_nat n) as k. clear n Hn.
  intros k. revert m. induction k as [| k IH]; intros m; [constructor |].
  rewrite seqZ_cons by lia.
  replace (Z.pred (Z.of_nat (S k))) with (Z.of_nat k) by lia.
  constructor; [apply IH |].
  destruct k as [| k]; [constructor |].
  rewrite seqZ_cons by lia. constructor. unfold ordered. lia.
Qed.

Lemma copyPages_all sourcePdf :
  copyPages sourcePdf (seqZ 0 (len sourcePdf)) = Some sourcePdf.
Proof.
  unfold copyPages. apply mapM_Some_2, Forall2_same_length_lookup_2.
  - rewrite length_seqZ. unfold len. lia.
  - intros k i page [-> _]%lookup_seqZ Hpage.
    by rewrite Z.add_0_l, get_nat.
Qed.

(** Selecting all pages and splitting saves the source document as it
    is. *)
Theorem selectAll_then_split_is_whole_document sourcePdf (st : State)
    (pdf : LoadedPDF) :
  loadedPDF st = Some pdf →
  len sourcePdf = pages pdf →
  sourcePdf ≠ [] →
  handleSplit sourcePdf (selectAll st) = Some sourcePdf.
Proof.
  intros Hpdf Hlen Hne. unfold handleSplit, selectAll. rewrite Hpdf. simpl.
  rewrite (foldl_add_fresh (seqZ 1 (pages pdf)) JsSet.empty);
    [| apply NoDup_seqZ | intros x _ Hx; by apply elem_of_nil in Hx].
  unfold JsSet.empty. simpl.
  assert (0 < pages pdf) as Hpos.
  { rewrite <- Hlen. unfold len. destruct sourcePdf; [done | simpl; lia]. }
  rewrite bool_decide_eq_false_2.
  2: { unfold JsSet.size. rewrite length_seqZ. lia. }
  assert (pageIndices (seqZ 1 (pages pdf)) = seqZ 0 (len sourcePdf)) as ->.
  { unfold pageIndices.
    assert (sort (λ a b, a - b) (seqZ 1 (pages pdf)) = seqZ 1 (pages pdf)) as ->.
    { apply (Sorted_unique (ordered (λ a b, a - b)));
        [apply Sorted_merge_sort, _ | apply Sorted_seqZ | apply sort_Permutation]. }
    rewrite Hlen. rewrite <- (fmap_add_seqZ (-1) 1).
    apply list_fmap_ext. intros _ x _. lia. }
  rewrite copyPages_all. simpl. by rewrite foldl_addPage.
Qed.
End SplitOutput.

Section SplitOutputExamples.
Import Js SplitPDF Examples.

Lemma handleSplit_is_subsequence_witness :
  ∃ out,
    handleSplit ["p1"; "p2"; "p3"; "p4"]
      (after (split_file 4) [TogglePage 4; TogglePage 2; TogglePage 3; TogglePage 2])
    = Some out ∧
    out `sublist_of` ["p1"; "p2"; "p3"; "p4"] ∧
    len out
    = JsSet.size
        (selectedPages
           (after (split_file 4)
              [TogglePage 4; TogglePage 2; TogglePage 3; TogglePage 2])).
Proof.
  apply (handleSplit_is_subsequence ["p1"; "p2"; "p3"; "p4"] (split_file 4)
           [TogglePage 4; TogglePage 2; TogglePage 3; TogglePage 2]).
  - repeat constructor; simpl; lia.
  - reflexivity.
  - simpl. discriminate.
Defined.

Lemma selectAll_then_split_is_whole_document_witness :
  handleSplit ["p1"; "p2"; "p3"]
    (selectAll {| loadedPDF := Some (split_file 3); selectedPages := [2] |})
  = Some ["p1"; "p2"; "p3"].
Proof.
  apply (selectAll_then_split_is_whole_document ["p1"; "p2"; "p3"] _ (split_file 3)).
  - reflexivity.
  - reflexivity.
  - discriminate.
Defined.
End SplitOutputExamples.

(** ** ProtectPDF: when a protected file is written *)

Section ProtectGuards.
Import Js ProtectPDF.
Context (t : string → string).

(** [handleProtect] writes a file exactly when a file is loaded, the
    condition [isValid] that enables the button holds and the library
    calls go through; the file is then encrypted with the password
    typed, which has four characters or more and equals its
    confirmation.  When no file is written the loaded file and both
    passwords stay as they were. *)
Theorem handleProtect_writes_iff_valid (saved : bool) (st : State) :
  match (handleProtect t saved st).2 with
  | Some (fileName, encryption) =>
      ∃ pdf,
        loadedPDF st = Some pdf ∧ isValid st = true ∧ saved = true ∧
        fileName = "protected_" +:+ name pdf ∧
        userPassword encryption = password st ∧
        ownerPassword encryption = confirmPassword st ∧
        4 ≤ len (userPassword encryption)
  | None =>
      (loadedPDF st = None ∨ isValid st = false ∨ saved = false) ∧
      loadedPDF (handleProtect t saved st).1 = loadedPDF st ∧
      password (handleProtect t saved st).1 = password st ∧
      confirmPassword (handleProtect t saved st).1 = confirmPassword st
  end.
Proof.
  unfold handleProtect, isValid.
  destruct (loadedPDF st) as [pdf |] eqn:Hpdf; simpl; [| by auto].
  case_bool_decide as Hempty; simpl.
  { split_and!; try done. right. left. rewrite Hempty.
    by rewrite bool_decide_eq_false_2 by (unfold len; simpl; lia). }
  case_bool_decide as Hmismatch; simpl.
  { split_and!; try done. right. left.
    rewrite (bool_decide_eq_false_2 (password st = confirmPassword st)) by done.
    by rewrite andb_false_r. }
  case_bool_decide as Hshort; simpl.
  { split_and!; try done. right. left.
    by rewrite bool_decide_eq_false_2 by lia. }
  assert (password st = confirmPassword st) as Hsame.
  { destruct (decide (password st = confirmPassword st)); [done |].
    by destruct Hmismatch. }
  destruct saved; simpl.
  - exists pdf. split_and!; try done; [| lia].
    rewrite bool_decide_eq_true_2 by lia.
    by rewrite bool_decide_eq_true_2.
  - split_and!; try done. auto.
Qed.
End ProtectGuards.

(** ** PDFToImages: the downloads *)

Section ConvertNames.
Import Js PDFToImages.


End ConvertNames.

Section ConvertNamesExamples.
Import Js PDFToImages.

(** Four pages, the third of which fails to render: two downloads,
    and the file stays; when every page renders, four downloads and
    the file is taken off. *)
Example handleConvert_examples :
  let st := {| loadedPDF := Some {| file := Examples.sample_file;
                                    name := "sample.pdf"; pages := 4;
                                    size := "2.0 KB" |};
               format := jpeg; resolution := 150 |} in
  map download (handleConvert (Some 4) (λ i, bool_decide (i ≠ 3)) st).2
  = ["page_1.jpeg"; "page_2.jpeg"]
  ∧ (handleConvert (Some 4) (λ i, bool_decide (i ≠ 3)) st).1 = st
  ∧ map download (handleConvert (Some 4) (λ _, true) st).2
    = ["page_1.jpeg"; "page_2.jpeg"; "page_3.jpeg"; "page_4.jpeg"]
  ∧ loadedPDF (handleConvert (Some 4) (λ _, true) st).1 = None
  ∧ handleConvert None (λ _, true) st = (st, []).
Proof. repeat split. Qed.
End ConvertNamesExamples.

(** ** formatFileSize: just below a megabyte *)

Section FormatFileSizeEdge.
Import Js.

(** The last 51 byte counts below a megabyte are shown as 1024.0 KB:
    the unit is chosen from the byte count, before the number is
    rounded to one decimal. *)
Theorem formatFileSize_just_below_megabyte (bytes : Z) :
  1048525 ≤ bytes < 1048576 →
  MergePDF.formatFileSize bytes = "1024.0 KB".
Proof.
  intros Hrange. unfold MergePDF.formatFileSize.
  rewrite bool_decide_eq_false_2 by lia.
  rewrite bool_decide_eq_true_2 by lia.
  rewrite toFixed_one_decimal by (simpl; lia).
  rewrite (tenths_of_bytes bytes 1024).
  assert ((20 * bytes + 1024) `div` (2 * 1024) = 10240) as ->.
  { symmetry. apply (Z.div_unique _ _ _ (20 * bytes + 1024 - 10240 * 2048)); lia. }
  vm_compute. reflexivity.
Qed.

Lemma formatFileSize_just_below_megabyte_witness :
  MergePDF.formatFileSize 1048525 = "1024.0 KB".
Proof. apply formatFileSize_just_below_megabyte. lia. Defined.
End FormatFileSizeEdge.
